(** * ThreadPool: a shallow embedding of [src/ThreadPool.cpp]

    The pool keeps a table of worker threads, a task queue, a counter of idle
    workers, a capacity limit and a closed flag.  The facade operations are
    embedded as computations in a small state-and-log monad over the record
    [ThreadPoolStructure]; the two that call [std::vector::reserve] may throw
    and return an [outcome].  The manager thread ([ThreadPool::execute]) and a
    call of [setThreads] are also embedded as step functions over their
    program points, so that they can be interleaved with each other and with
    the calls of other threads. *)

From stdpp Require Import base numbers list.
From Stdlib Require Import ZArith Lia.

Local Open Scope Z_scope.

(** ** Integer types

    [ThreadPool::size_type] is declared in [ThreadPool.h].  The embedding takes
    it as a parameter: any integer type of 8, 16, 32 or 64 bits, signed or
    unsigned.  [std::size_t] is the unsigned type of 64 bits. *)

Inductive width : Type := W8 | W16 | W32 | W64.

Record int_type : Type := IntType { it_signed : bool; it_width : width }.

Definition bits (w : width) : Z :=
  match w with W8 => 8 | W16 => 16 | W32 => 32 | W64 => 64 end.

Definition modulus (t : int_type) : Z := 2 ^ bits (it_width t).

Definition min_value (t : int_type) : Z :=
  if it_signed t then - (modulus t / 2) else 0.

Definition max_value (t : int_type) : Z :=
  if it_signed t then modulus t / 2 - 1 else modulus t - 1.

Definition in_range (t : int_type) (z : Z) : Prop :=
  min_value t <= z <= max_value t.

(** Conversion of an integer to the type [t] (two's complement). *)
Definition wrap (t : int_type) (z : Z) : Z :=
  min_value t + (z - min_value t) mod modulus t.

Definition size_t : int_type := IntType false W64.

Definition to_size_t (z : Z) : Z := wrap size_t z.

(** ** Observable events

    The two mutexes and the condition variable of the pool are not part of
    the data record: what a computation does to them is recorded in its log. *)

Inductive mutex_id : Type :=
  | pool_mutex    (* data->mutex *)
  | queue_mutex.  (* data->taskQueue->mutex() *)

Inductive event : Type :=
  | Lock (m : mutex_id)
  | Unlock (m : mutex_id)
  | NotifyOne      (* data->signal.notify_one() *)
  | PushBack       (* data->threadTable.push_back(...) *)
  | Spawn          (* data->thread = std::thread(execute, data) *)
  | Detach         (* data->thread.detach() *)
  | DestroyWorker. (* thread->destroy() *)

Global Instance mutex_id_eq_dec : EqDecision mutex_id.
Proof. solve_decision. Defined.

Global Instance event_eq_dec : EqDecision event.
Proof. solve_decision. Defined.

Definition notifications (log : list event) : nat :=
  length (filter (λ e, e = NotifyOne) log).

(** Number of mutexes held after [log], starting from the set [held], and the
    largest number held at any point of it. *)
Definition held_after (held : list mutex_id) (e : event) : list mutex_id :=
  match e with
  | Lock m => m :: held
  | Unlock m => filter (λ m', m' ≠ m) held
  | _ => held
  end.

Fixpoint max_held (held : list mutex_id) (log : list event) : nat :=
  match log with
  | [] => length held
  | e :: log' => Nat.max (length held) (max_held (held_after held e) log')
  end.

(** ** The task queue *)

(** Modelled from the spec: [Queue.h] is not part of the sources.  The queue
    is a thread-safe FIFO of task units with push one, push many, pop front,
    peek front, empty and size, and it exposes its mutex. *)
Module Queue.
Section Operations.
Context {T : Type}.

(** Modelled from the spec: push one, at the back. *)
Definition push (x : T) (q : list T) : list T := q ++ [x].

(** Modelled from the spec: push many, at the back, in their order. *)
Definition push_list (xs : list T) (q : list T) : list T := q ++ xs.

(** Modelled from the spec: pop front. *)
Definition pop (q : list T) : list T := tail q.

(** Modelled from the spec: peek front. *)
Definition front (q : list T) : option T := head q.

(** Modelled from the spec: empty. *)
Definition empty (q : list T) : bool := match q with [] => true | _ => false end.

(** Modelled from the spec: size. *)
Definition size (q : list T) : Z := Z.of_nat (length q).
End Operations.
End Queue.

(** ** The worker thread *)

(** [Thread.h] is not part of the sources: the pool uses a worker only through
    its constructor and four operations, which are taken as an interface.
    [configure] and [start] report success and may change the worker. *)
Module Thread.
Class Ops (Thread TaskPair : Type) : Type := {
  make : Thread;   (* std::make_unique<Thread>(taskQueue, callback) *)
  free : Thread → bool;
  configure : Thread → TaskPair → bool * Thread;
  start : Thread → bool * Thread;
  destroy : Thread → Thread
}.
End Thread.

(** Modelled from the spec: the worker of the worker contract, an instance of
    the interface to run the pool on.  It is idle iff it runs no task and has
    none assigned. *)
Module Worker.
Section Worker.
Context {TaskPair : Type}.

Record Worker : Type := {
  assigned : option TaskPair;
  running : bool;
  destroyed : bool
}.

Definition make : Worker :=
  {| assigned := None; running := false; destroyed := false |}.

(** Modelled from the spec: true iff the worker is not executing a task and
    has no task assigned. *)
Definition isIdle (w : Worker) : bool :=
  negb (running w) && match assigned w with None => true | Some _ => false end.

(** Modelled from the spec: assigns the task, or fails when the worker is not
    in an assignable state. *)
Definition configure (w : Worker) (task : TaskPair) : bool * Worker :=
  if isIdle w && negb (destroyed w)
  then (true, {| assigned := Some task; running := false; destroyed := destroyed w |})
  else (false, w).

(** Modelled from the spec: wakes a worker that has a configured task. *)
Definition start (w : Worker) : bool * Worker :=
  match assigned w with
  | Some task =>
      if running w then (false, w)
      else (true, {| assigned := Some task; running := true; destroyed := destroyed w |})
  | None => (false, w)
  end.

(** Modelled from the spec: requests the worker to terminate. *)
Definition destroy (w : Worker) : Worker :=
  {| assigned := assigned w; running := running w; destroyed := true |}.

(** Modelled from the spec: the worker finishes its task and is idle again. *)
Definition finish (w : Worker) : Worker :=
  {| assigned := None; running := false; destroyed := destroyed w |}.

Global Instance ops : Thread.Ops Worker TaskPair := {|
  Thread.make := make;
  Thread.free := isIdle;
  Thread.configure := configure;
  Thread.start := start;
  Thread.destroy := destroy
|}.
End Worker.
Arguments Worker : clear implicits.
End Worker.

(** ** Exceptions

    The pool throws nothing of its own.  [std::vector::reserve] throws
    [std::length_error] when it is asked for more elements than [max_size()],
    and [std::bad_alloc] when the allocator has no storage to give. *)

Inductive exception : Type := length_error | bad_alloc.

(** How a call that may throw ends. *)
Inductive outcome (A : Type) : Type :=
  | Returns (a : A)
  | Throws (e : exception).

Arguments Returns {A} a.
Arguments Throws {A} e.

(** ** The vector of the worker table

    [threadTable] is a [std::vector<std::unique_ptr<Thread>>].  What the
    implementation of C++ and the machine decide about it is a parameter of
    the embedding: [max_size] is what [threadTable.max_size()] returns, and
    [allocate n] tells whether the vector, asked to hold [n] elements, has or
    obtains the storage for them. *)
Module Vector.
Class Limits : Type := {
  max_size : Z;
  allocate : Z → bool
}.
End Vector.

(** ** The pool *)

Section ThreadPool.

Context {Thread functor : Type}.

(** [TaskPair] is [std::pair<functor, functor>]: the work and its callback. *)
Abbreviation TaskPair := (functor * functor)%type.

Context `{!Thread.Ops Thread TaskPair}.

Context `{!Vector.Limits}.

Variable size_type : int_type.

(** [thread] records whether the manager thread object is joinable.  The
    mutex and the condition variable live in the logs, the callback is the
    definition [callback] below. *)
Record ThreadPoolStructure : Type := {
  threadTable : list Thread;
  taskQueue : list TaskPair;
  thread : bool;
  closed : bool;
  maxThreads : Z;
  freeThreads : Z
}.

Definition with_threadTable (v : list Thread) (d : ThreadPoolStructure) :=
  {| threadTable := v; taskQueue := taskQueue d; thread := thread d;
     closed := closed d; maxThreads := maxThreads d; freeThreads := freeThreads d |}.

Definition with_taskQueue (v : list TaskPair) (d : ThreadPoolStructure) :=
  {| threadTable := threadTable d; taskQueue := v; thread := thread d;
     closed := closed d; maxThreads := maxThreads d; freeThreads := freeThreads d |}.

Definition with_thread (v : bool) (d : ThreadPoolStructure) :=
  {| threadTable := threadTable d; taskQueue := taskQueue d; thread := v;
     closed := closed d; maxThreads := maxThreads d; freeThreads := freeThreads d |}.

Definition with_closed (v : bool) (d : ThreadPoolStructure) :=
  {| threadTable := threadTable d; taskQueue := taskQueue d; thread := thread d;
     closed := v; maxThreads := maxThreads d; freeThreads := freeThreads d |}.

Definition with_maxThreads (v : Z) (d : ThreadPoolStructure) :=
  {| threadTable := threadTable d; taskQueue := taskQueue d; thread := thread d;
     closed := closed d; maxThreads := v; freeThreads := freeThreads d |}.

Definition with_freeThreads (v : Z) (d : ThreadPoolStructure) :=
  {| threadTable := threadTable d; taskQueue := taskQueue d; thread := thread d;
     closed := closed d; maxThreads := maxThreads d; freeThreads := v |}.

(** [std::make_shared<ThreadPoolStructure>()]: an empty table, an empty queue,
    no manager thread yet.  The three atomics are written by the constructor
    before anything reads them. *)
Definition make_shared : ThreadPoolStructure :=
  {| threadTable := []; taskQueue := []; thread := false;
     closed := false; maxThreads := 0; freeThreads := 0 |}.

(** *** The monad: a computation reads and writes the pool data and logs what
    it does to the mutexes, the condition variable and the threads. *)

Definition M (A : Type) : Type :=
  ThreadPoolStructure → A * ThreadPoolStructure * list event.

Global Instance M_ret : MRet M := λ A a d, (a, d, []).

Global Instance M_bind : MBind M := λ A B f m d,
  let '(a, d1, log1) := m d in
  let '(b, d2, log2) := f a d1 in
  (b, d2, log1 ++ log2).

Definition get {A : Type} (f : ThreadPoolStructure → A) : M A :=
  λ d, (f d, d, []).

Definition modify (f : ThreadPoolStructure → ThreadPoolStructure) : M unit :=
  λ d, (tt, f d, []).

Definition emit (e : event) : M unit := λ d, (tt, d, [e]).

Definition result {A : Type} (r : A * ThreadPoolStructure * list event) : A := r.1.1.
Definition state {A : Type} (r : A * ThreadPoolStructure * list event) : ThreadPoolStructure := r.1.2.
Definition log {A : Type} (r : A * ThreadPoolStructure * list event) : list event := r.2.

(** [for (counter = 0; counter < n; ++counter) body] *)
Fixpoint for_counter (n : nat) (body : M unit) : M unit :=
  match n with
  | O => mret tt
  | S k => body ;; for_counter k body
  end.

Definition notify_one : M unit := emit NotifyOne.

(** [data->threadTable.size()] *)
Definition table_size : M Z := get (λ d, Z.of_nat (length (threadTable d))).

(** [data->threadTable.reserve(n)]: the argument is converted to
    [std::size_t].  The call throws [std::length_error] when [n] exceeds
    [max_size()]; it does nothing when the table has [n] elements already;
    otherwise it makes sure of the storage for [n] elements, and throws
    [std::bad_alloc] when there is none.  It changes the capacity of the
    vector only, which is not part of the data. *)
Definition reserve (n : Z) : M (outcome unit) :=
  size ← table_size ;
  let n := to_size_t n in
  mret (if n >? Vector.max_size then Throws length_error
        else if n <=? size then Returns tt
        else if Vector.allocate n then Returns tt
        else Throws bad_alloc).

(** [data->threadTable.push_back(std::make_unique<Thread>(taskQueue, callback))].
    [std::make_unique<Thread>] runs the constructor of [Thread.h]; it and the
    growth of the vector inside [push_back] are taken to succeed. *)
Definition push_back : M unit :=
  modify (λ d, with_threadTable (threadTable d ++ [Thread.make]) d) ;;
  emit PushBack.

Definition setClosed (c : bool) : M unit := modify (with_closed c).

Definition getClosed : M bool := get closed.

Definition setMaxThreads (maxThreads : Z) : M unit :=
  modify (with_maxThreads (if maxThreads >? 0 then maxThreads else 1)).

Definition getMaxThreads : M Z := get maxThreads.

(** The callback given to every worker:
    [if (free && ++data->freeThreads == 0x01) data->signal.notify_one();] *)
Definition callback (free : bool) (id : nat) : M unit :=
  if free then
    modify (λ d, with_freeThreads (wrap size_type (freeThreads d + 1)) d) ;;
    n ← get freeThreads ;
    if n =? 1 then notify_one else mret tt
  else mret tt.

(** The constructor, run on [make_shared].  When [reserve] throws, the
    constructor ends there: no worker is built, no manager thread is started
    and the caller gets the exception instead of a pool. *)
Definition ThreadPool (threads maxThreads : Z) : M (outcome unit) :=
  setClosed false ;;
  setMaxThreads maxThreads ;;
  let threads := Z.min threads maxThreads in
  reserved ← reserve threads ;
  match reserved with
  | Throws e => mret (Throws e)
  | Returns _ =>
      for_counter (Z.to_nat threads) push_back ;;
      size ← table_size ;
      modify (with_freeThreads (wrap size_type size)) ;;
      modify (with_thread true) ;;
      emit Spawn ;;
      mret (Returns tt)
  end.

(** [threads - data->threadTable.size()] has the type [std::size_t], whatever
    [size_type] is, by the usual arithmetic conversions: [number > 0] is
    [number != 0] and [number < 0] never holds.  When [reserve] throws, the
    destructor of [locker] releases the pool mutex and the exception leaves
    the call. *)
Definition setThreads (threads : Z) : M (outcome bool) :=
  max ← getMaxThreads ;
  if threads >? max then mret (Returns false)
  else
    size ← table_size ;
    let number := to_size_t (threads - size) in
    if number >? 0 then
      emit (Lock pool_mutex) ;;
      reserved ← reserve threads ;
      match reserved with
      | Throws e => emit (Unlock pool_mutex) ;; mret (Throws e)
      | Returns _ =>
          for_counter (Z.to_nat number) push_back ;;
          emit (Unlock pool_mutex) ;;
          modify (λ d, with_freeThreads
                         (wrap size_type (freeThreads d + wrap size_type number)) d) ;;
          n ← get freeThreads ;
          (if to_size_t n =? number then notify_one else mret tt) ;;
          mret (Returns true)
      end
    else if number <? 0 then mret (Returns false)
    else mret (Returns false).

Definition getThreads : M Z :=
  size ← table_size ; mret (wrap size_type size).


Definition getTasks : M Z :=
  get (λ d, wrap size_type (Queue.size (taskQueue d))).

(** Modelled from the spec: the push of the queue, [data->taskQueue->push(...)],
    takes the queue's own mutex (submission blocks on the queue's lock). *)
Definition taskQueue_push (task : TaskPair) : M unit :=
  emit (Lock queue_mutex) ;;
  modify (λ d, with_taskQueue (Queue.push task (taskQueue d)) d) ;;
  emit (Unlock queue_mutex).

(** Modelled from the spec: the batch push of the queue, under its mutex. *)
Definition taskQueue_push_list (tasks : list TaskPair) : M unit :=
  emit (Lock queue_mutex) ;;
  modify (λ d, with_taskQueue (Queue.push_list tasks (taskQueue d)) d) ;;
  emit (Unlock queue_mutex).

(** Modelled from the spec: the pop of the queue as a thread other than the
    manager calls it, under the mutex of the queue. *)
Definition taskQueue_pop : M unit :=
  emit (Lock queue_mutex) ;;
  modify (λ d, with_taskQueue (Queue.pop (taskQueue d)) d) ;;
  emit (Unlock queue_mutex).

Definition taskQueue_size : M Z := get (λ d, Queue.size (taskQueue d)).

(** [pushTask(functor process, functor callback)] *)
Definition pushTask (process callback : functor) : M unit :=
  taskQueue_push (process, callback) ;;
  n ← taskQueue_size ;
  if n =? 1 then notify_one else mret tt.

(** [pushTask(TaskPair&& task)] *)
Definition pushTask_pair (task : TaskPair) : M unit :=
  taskQueue_push task ;;
  n ← taskQueue_size ;
  if n =? 1 then notify_one else mret tt.

(** [pushTask(std::list<TaskPair>& tasks)] *)
Definition pushTask_list (tasks : list TaskPair) : M unit :=
  let size := Z.of_nat (length tasks) in
  taskQueue_push_list tasks ;;
  n ← taskQueue_size ;
  if n =? size then notify_one else mret tt.

Definition detach : M unit := modify (with_thread false) ;; emit Detach.

Definition destroy : M unit :=
  c ← getClosed ;
  if c : bool then mret tt
  else
    setClosed true ;;
    detach ;;
    notify_one.

(** *** The manager thread, [ThreadPool::execute]

    One program point per statement of the function that reads or writes
    shared data, takes or releases a mutex, or may block.  The local state of
    the thread is its program point, the two [std::unique_lock] objects
    (whether each owns its mutex) and the iterator [it] of the scan. *)

Inductive label : Type :=
  | While_closed    (* 232: while (!getClosed(data)) *)
  | Lock_threads    (* 234: threadLocker.lock() *)
  | If_free         (* 236: if (!data->freeThreads) *)
  | Wait_free       (* 240: signal.wait(threadLocker, pred): test of pred *)
  | Blocked_free    (* 240: inside wait, mutex released *)
  | Break_closed    (* 243: if (getClosed(data)) break *)
  | For             (* 248: loop condition of the scan *)
  | If_thread_free  (* 251: if (thread->free()) *)
  | Lock_tasks      (* 253: taskLocker.lock() *)
  | While_empty     (* 256: while (data->taskQueue->empty()) *)
  | Wait_task       (* 260: signal.wait(taskLocker, pred): test of pred *)
  | Blocked_task    (* 260: inside wait, queue mutex released *)
  | If_closed       (* 262: if (getClosed(data)) { destroy(); return; } *)
  | Configure       (* 269: configure && start, then pop and decrement *)
  | Unlock_tasks    (* 275: taskLocker.unlock() *)
  | Unlock_threads  (* 278: threadLocker.unlock() *)
  | Destroy         (* 280: destroy() *)
  | Return          (* end of the function: the two lockers are destructed *)
  | Done            (* the thread has ended *)
  | Error.          (* std::system_error or undefined behaviour *)

Record Manager : Type := {
  pc : label;
  threadLocker : bool;
  taskLocker : bool;
  it : nat
}.

Definition goto (l : label) (m : Manager) : Manager :=
  {| pc := l; threadLocker := threadLocker m; taskLocker := taskLocker m; it := it m |}.

Definition with_threadLocker (b : bool) (m : Manager) : Manager :=
  {| pc := pc m; threadLocker := b; taskLocker := taskLocker m; it := it m |}.

Definition with_taskLocker (b : bool) (m : Manager) : Manager :=
  {| pc := pc m; threadLocker := threadLocker m; taskLocker := b; it := it m |}.

Definition with_it (i : nat) (m : Manager) : Manager :=
  {| pc := pc m; threadLocker := threadLocker m; taskLocker := taskLocker m; it := i |}.

(** The manager as [std::thread(ThreadPool::execute, data)] starts it. *)
Definition execute_start : Manager :=
  {| pc := While_closed; threadLocker := false; taskLocker := false; it := 0%nat |}.

(** [std::unique_lock::lock()] throws when the lock is owned already. *)
Definition locker_lock (mx : mutex_id) (next : label) (m : Manager) : M Manager :=
  let owns := match mx with pool_mutex => threadLocker m | queue_mutex => taskLocker m end in
  if owns : bool then mret (goto Error m)
  else
    emit (Lock mx) ;;
    mret (goto next (match mx with
                     | pool_mutex => with_threadLocker true m
                     | queue_mutex => with_taskLocker true m
                     end)).

(** [std::unique_lock::unlock()] throws when the lock is not owned. *)
Definition locker_unlock (mx : mutex_id) (next : label) (m : Manager) : M Manager :=
  let owns := match mx with pool_mutex => threadLocker m | queue_mutex => taskLocker m end in
  if owns : bool then
    emit (Unlock mx) ;;
    mret (goto next (match mx with
                     | pool_mutex => with_threadLocker false m
                     | queue_mutex => with_taskLocker false m
                     end))
  else mret (goto Error m).

(** The lambda [destroy] of [execute]: [for (auto& thread : data->threadTable)
    thread->destroy();] *)
Definition destroy_workers : M unit :=
  n ← get (λ d, length (threadTable d)) ;
  modify (λ d, with_threadTable (map Thread.destroy (threadTable d)) d) ;;
  for_counter n (emit DestroyWorker).

(** Lines 269 to 274, on the worker [w] at [it] and the front [task]. *)
Definition configure_and_start (i : nat) (w : Thread) (task : TaskPair) : M bool :=
  let '(configured, w1) := Thread.configure w task in
  if configured : bool then
    let '(started, w2) := Thread.start w1 in
    modify (λ d, with_threadTable (<[i:=w2]> (threadTable d)) d) ;;
    if started : bool then
      modify (λ d, with_taskQueue (Queue.pop (taskQueue d)) d) ;;
      modify (λ d, with_freeThreads (wrap size_type (freeThreads d - 1)) d) ;;
      mret true
    else mret false
  else
    modify (λ d, with_threadTable (<[i:=w1]> (threadTable d)) d) ;;
    mret false.

Definition execute_step (m : Manager) : M Manager :=
  match pc m with
  | While_closed =>
      c ← getClosed ;
      mret (goto (if c : bool then Destroy else Lock_threads) m)
  | Lock_threads => locker_lock pool_mutex If_free m
  | If_free =>
      n ← get freeThreads ;
      mret (if n =? 0 then goto Wait_free m else goto For (with_it 0%nat m))
  | Wait_free =>
      n ← get freeThreads ;
      c ← getClosed ;
      if negb (n =? 0) || c then mret (goto Break_closed m)
      else emit (Unlock pool_mutex) ;; mret (goto Blocked_free (with_threadLocker false m))
  | Blocked_free =>   (* a wake-up, notified or spurious *)
      emit (Lock pool_mutex) ;; mret (goto Wait_free (with_threadLocker true m))
  | Break_closed =>
      c ← getClosed ;
      mret (if c : bool then goto Destroy m else goto For (with_it 0%nat m))
  | For =>
      size ← get (λ d, length (threadTable d)) ;
      n ← get freeThreads ;
      c ← getClosed ;
      mret (goto (if bool_decide (it m < size)%nat && negb (n =? 0) && negb c
                  then If_thread_free else Unlock_threads) m)
  | If_thread_free =>
      w ← get (λ d, threadTable d !! it m) ;
      mret (match w with
            | Some w => if Thread.free w then goto Lock_tasks m
                        else goto For (with_it (S (it m)) m)
            | None => goto Error m
            end)
  | Lock_tasks => locker_lock queue_mutex While_empty m
  | While_empty =>
      q ← get taskQueue ;
      mret (goto (if Queue.empty q then Wait_task else Configure) m)
  | Wait_task =>
      q ← get taskQueue ;
      c ← getClosed ;
      if negb (Queue.empty q) || c then mret (goto If_closed m)
      else emit (Unlock queue_mutex) ;; mret (goto Blocked_task (with_taskLocker false m))
  | Blocked_task =>   (* a wake-up, notified or spurious *)
      emit (Lock queue_mutex) ;; mret (goto Wait_task (with_taskLocker true m))
  | If_closed =>
      c ← getClosed ;
      if c : bool then destroy_workers ;; mret (goto Return m)
      else mret (goto While_empty m)
  | Configure =>
      w ← get (λ d, threadTable d !! it m) ;
      task ← get (λ d, Queue.front (taskQueue d)) ;
      match w, task with
      | Some w, Some task => configure_and_start (it m) w task ;; mret (goto Unlock_tasks m)
      | _, _ => mret (goto Error m)
      end
  | Unlock_tasks => locker_unlock queue_mutex For (with_it (S (it m)) m)
  | Unlock_threads => locker_unlock pool_mutex While_closed m
  | Destroy => destroy_workers ;; mret (goto Return m)
  | Return =>
      (if taskLocker m then emit (Unlock queue_mutex) else mret tt) ;;
      (if threadLocker m then emit (Unlock pool_mutex) else mret tt) ;;
      mret (goto Done (with_threadLocker false (with_taskLocker false m)))
  | Done => mret m
  | Error => mret m
  end.

(** *** A call of [setThreads], statement by statement

    The same function as [setThreads] above, as the steps of the calling
    thread: other threads run between two of them, and the manager waits for
    the pool mutex while the caller owns it.  The local state of the caller is
    its program point, the argument [threads] and the locals [number] and
    [counter]. *)

Inductive setter_label : Type :=
  | Check_max       (* 105: if (threads > getMaxThreads()) return false *)
  | Difference      (* 108: number = threads - size(); number > 0 *)
  | Lock_table      (* 111: locker(data->mutex), 112: reserve *)
  | Push_loop       (* 114: one test of the loop and, if it holds, one push_back *)
  | Unlock_table    (* 116: locker.unlock() *)
  | Add_free        (* 118: data->freeThreads += number *)
  | Notify          (* 120: if (data->freeThreads == number) notify_one() *)
  | Returned (b : bool)
  | Thrown (e : exception).   (* 112: reserve threw, the locker was destructed *)

Record Setter : Type := {
  setter_pc : setter_label;
  setter_threads : Z;
  setter_number : Z;
  setter_counter : Z
}.

Definition setter_goto (l : setter_label) (c : Setter) : Setter :=
  {| setter_pc := l; setter_threads := setter_threads c;
     setter_number := setter_number c; setter_counter := setter_counter c |}.

Definition with_number (n : Z) (c : Setter) : Setter :=
  {| setter_pc := setter_pc c; setter_threads := setter_threads c;
     setter_number := n; setter_counter := setter_counter c |}.

Definition with_counter (n : Z) (c : Setter) : Setter :=
  {| setter_pc := setter_pc c; setter_threads := setter_threads c;
     setter_number := setter_number c; setter_counter := n |}.

(** The caller as it enters [setThreads(threads)]. *)
Definition setThreads_enter (threads : Z) : Setter :=
  {| setter_pc := Check_max; setter_threads := threads;
     setter_number := 0; setter_counter := 0 |}.

Definition setThreads_step (c : Setter) : M Setter :=
  match setter_pc c with
  | Check_max =>
      max ← getMaxThreads ;
      mret (setter_goto (if setter_threads c >? max then Returned false
                         else Difference) c)
  | Difference =>
      size ← table_size ;
      let number := to_size_t (setter_threads c - size) in
      mret (if number >? 0 then setter_goto Lock_table (with_number number c)
            else if number <? 0 then setter_goto (Returned false) c
            else setter_goto (Returned false) c)
  | Lock_table =>
      emit (Lock pool_mutex) ;;
      reserved ← reserve (setter_threads c) ;
      match reserved with
      | Throws e => emit (Unlock pool_mutex) ;; mret (setter_goto (Thrown e) c)
      | Returns _ => mret (setter_goto Push_loop (with_counter 0 c))
      end
  | Push_loop =>
      if setter_counter c <? setter_number c then
        push_back ;;
        mret (with_counter (to_size_t (setter_counter c + 1)) c)
      else mret (setter_goto Unlock_table c)
  | Unlock_table =>
      emit (Unlock pool_mutex) ;;
      mret (setter_goto Add_free c)
  | Add_free =>
      modify (λ d, with_freeThreads
                     (wrap size_type
                        (freeThreads d + wrap size_type (setter_number c))) d) ;;
      mret (setter_goto Notify c)
  | Notify =>
      n ← get freeThreads ;
      (if to_size_t n =? setter_number c then notify_one else mret tt) ;;
      mret (setter_goto (Returned true) c)
  | Returned b => mret c
  | Thrown e => mret c
  end.

(** [n] steps of the caller in a row, no other thread in between. *)
Fixpoint setThreads_steps (n : nat) (c : Setter) : M Setter :=
  match n with
  | O => mret c
  | S k => c' ← setThreads_step c ; setThreads_steps k c'
  end.


(** The caller owns the pool mutex from line 111 to line 116. *)
Definition setter_owns (c : option Setter) : bool :=
  match c with
  | Some c =>
      match setter_pc c with
      | Push_loop | Unlock_table => true
      | _ => false
      end
  | None => false
  end.

(** *** The system: the pool data, the manager thread and a thread inside
    [setThreads], with the calls of the other operations of the facade and
    what the workers do.  The manager and the caller of [setThreads] go
    statement by statement; each of the other calls is one step.  Who takes a
    mutex waits while another thread owns it.  A worker runs on its own
    thread: at any time it may change its [Thread] object, invoke the
    callback, and take the front task of the queue, which it was given at its
    construction (lines 55 and 115; the comments of lines 44 and 254 say that
    workers take tasks from the queue). *)

Record System : Type := {
  data : ThreadPoolStructure;
  manager : Manager;
  setter : option Setter
}.

Inductive action : Type :=
  | Manager_step
  | Call_setThreads (threads : Z)   (* a thread enters setThreads *)
  | Setter_step                     (* its next statement, or its return *)
  | Call_pushTask (process callback : functor)
  | Call_pushTask_pair (task : TaskPair)
  | Call_pushTask_list (tasks : list TaskPair)
  | Call_destroy
  | Call_setMaxThreads (maxThreads : Z)
  | Worker_callback (free : bool) (id : nat)
  | Worker_progress (i : nat) (w : Thread)
  | Worker_fetch.                   (* a worker takes the front task *)

Definition owns (m : Manager) (mx : mutex_id) : bool :=
  match mx with pool_mutex => threadLocker m | queue_mutex => taskLocker m end.

(** Some thread other than the manager owns the mutex. *)
Definition owned_by_others (s : System) (mx : mutex_id) : bool :=
  match mx with pool_mutex => setter_owns (setter s) | queue_mutex => false end.

(** Some thread other than the caller of [setThreads] owns the mutex. *)
Definition owned_by_manager (s : System) (mx : mutex_id) : bool :=
  owns (manager s) mx.

(** Some thread other than the one of an atomic call owns the mutex. *)
Definition owned (s : System) (mx : mutex_id) : bool :=
  owns (manager s) mx || owned_by_others s mx.

Definition takes (taken : mutex_id → bool) (log : list event) : bool :=
  existsb (λ e, match e with Lock mx => taken mx | _ => false end) log.

Definition call {A : Type} (c : M A) (s : System) : option (System * list event) :=
  let r := c (data s) in
  if takes (owned s) (log r) then None
  else Some ({| data := state r; manager := manager s; setter := setter s |}, log r).

Definition perform (a : action) (s : System) : option (System * list event) :=
  match a with
  | Manager_step =>
      let r := execute_step (manager s) (data s) in
      if takes (owned_by_others s) (log r) then None
      else Some ({| data := state r; manager := result r; setter := setter s |}, log r)
  | Call_setThreads threads =>
      match setter s with
      | None => Some ({| data := data s; manager := manager s;
                         setter := Some (setThreads_enter threads) |}, [])
      | Some _ => None
      end
  | Setter_step =>
      match setter s with
      | Some c =>
          match setter_pc c with
          | Returned _ | Thrown _ =>
              Some ({| data := data s; manager := manager s; setter := None |}, [])
          | _ =>
              let r := setThreads_step c (data s) in
              if takes (owned_by_manager s) (log r) then None
              else Some ({| data := state r; manager := manager s;
                            setter := Some (result r) |}, log r)
          end
      | None => None
      end
  | Call_pushTask process callback => call (pushTask process callback) s
  | Call_pushTask_pair task => call (pushTask_pair task) s
  | Call_pushTask_list tasks => call (pushTask_list tasks) s
  | Call_destroy => call destroy s
  | Call_setMaxThreads maxThreads => call (setMaxThreads maxThreads) s
  | Worker_callback free id => call (callback free id) s
  | Worker_progress i w =>
      call (modify (λ d, with_threadTable (<[i:=w]> (threadTable d)) d)) s
  | Worker_fetch => call taskQueue_pop s
  end.

Fixpoint run (acts : list action) (s : System) : option System :=
  match acts with
  | [] => Some s
  | a :: acts' =>
      match perform a s with
      | Some (s', _) => run acts' s'
      | None => None
      end
  end.

(** The system as the constructor leaves it: the data that it has built and
    the manager thread at the start of [execute].  When the constructor
    throws there is no pool, and [new_pool] is data that no thread reaches;
    what holds in all runs from [new_pool] holds in all runs of every pool
    that exists. *)
Definition new_pool (threads maxThreads : Z) : System :=
  {| data := state (ThreadPool threads maxThreads make_shared);
     manager := execute_start;
     setter := None |}.

(** The mutexes that the thread of an action holds as the action begins: the
    caller of [setThreads] may hold the pool mutex, a call that is one step
    begins with none. *)
Definition held_before (a : action) (s : System) : list mutex_id :=
  match a with
  | Setter_step => if setter_owns (setter s) then [pool_mutex] else []
  | _ => []
  end.

(** *** Notions used to state the properties of the pool *)

(** The queue goes from empty to non-empty between two states of the pool. *)
Definition empty_to_nonempty (d d' : ThreadPoolStructure) : Prop :=
  taskQueue d = [] ∧ taskQueue d' ≠ [].

(** A computation keeps a property of the data. *)
Definition preserves {A : Type} (P : ThreadPoolStructure → Prop) (c : M A) : Prop :=
  ∀ d, P d → P (state (c d)).

Definition is_closed (d : ThreadPoolStructure) : Prop := closed d = true.

(** [thread->configure(task) && thread->start()] *)
Definition hand_off (w : Thread) (task : TaskPair) : bool :=
  let '(configured, w1) := Thread.configure w task in
  if configured : bool then (Thread.start w1).1 else false.

(** Which lockers own their mutex at each program point of the manager. *)
Definition lock_discipline (m : Manager) : Prop :=
  match pc m with
  | While_closed | Lock_threads | Blocked_free | Done =>
      threadLocker m = false ∧ taskLocker m = false
  | If_free | Wait_free | Break_closed | For | If_thread_free | Lock_tasks
  | Blocked_task | Unlock_threads =>
      threadLocker m = true ∧ taskLocker m = false
  | While_empty | Wait_task | If_closed | Configure | Unlock_tasks =>
      threadLocker m = true ∧ taskLocker m = true
  | Destroy => taskLocker m = false
  | Return | Error => taskLocker m = true → threadLocker m = true
  end.

(** The pool mutex has at most one owner. *)
Definition exclusive (s : System) : Prop :=
  ¬ (owns (manager s) pool_mutex = true ∧ setter_owns (setter s) = true).

(** The manager owns the two mutexes at once. *)
Definition owns_both (m : Manager) : Prop :=
  owns m pool_mutex = true ∧ owns m queue_mutex = true.

End ThreadPool.

(** ** The pool on concrete workers

    [size_type] is [std::size_t], a functor is a number, the workers are those
    of [Worker]. *)

Abbreviation worker := (Worker.Worker (nat * nat)).

(** The vector as libstdc++ has it on a machine of 64 bits, where
    [max_size()] is [PTRDIFF_MAX / sizeof(std::unique_ptr<Thread>)], with
    storage for [2 ^ 32] entries of the table. *)
Global Instance limits : Vector.Limits := {|
  Vector.max_size := 2 ^ 60 - 1;
  Vector.allocate n := n <=? 2 ^ 32
|}.

Definition pool (threads maxThreads : Z) : @ThreadPoolStructure worker nat :=
  state (ThreadPool size_t threads maxThreads make_shared).

Definition system (threads maxThreads : Z) : @System worker nat :=
  new_pool size_t threads maxThreads.

(** A pool that was shut down, and what the threads may do to it next. *)
Definition closed_system : @System worker nat :=
  {| data := state (destroy (pool 2 4)); manager := execute_start;
     setter := None |}.

Definition after_shutdown : list (@action worker nat) :=
  [Call_pushTask 1%nat 2%nat; Manager_step; Call_setThreads 3;
   Setter_step; Setter_step; Setter_step; Setter_step;
   Worker_callback true 0%nat; Call_pushTask_list [(3%nat, 4%nat)];
   Setter_step; Setter_step; Setter_step; Setter_step; Setter_step;
   Call_destroy; Manager_step; Manager_step;
   Worker_progress 0%nat (Worker.finish Worker.make)].

(** The manager about to hand the task [(1, 2)] to the one worker of a pool. *)
Definition at_configure : Manager :=
  {| pc := Configure; threadLocker := true; taskLocker := true; it := 0%nat |}.


(** ** More of the pool: runs of the manager and of the system, and the
    notions used to state what they keep *)

Section Lifecycle.

Context {Thread functor : Type}.
Abbreviation TaskPair := (functor * functor)%type.
Context `{!Thread.Ops Thread TaskPair}.
Context `{!Vector.Limits}.
Variable size_type : int_type.

Abbreviation Data := (@ThreadPoolStructure Thread functor).
Abbreviation Pool := (@System Thread functor).
Abbreviation Action := (@action Thread functor).
Abbreviation Comp := (@M Thread functor).

(** A caller that submits the tasks of a list one at a time:
    [for (auto& task : tasks) pool.pushTask(std::move(task));] *)
Fixpoint pushTask_each (tasks : list TaskPair) : Comp unit :=
  match tasks with
  | [] => mret tt
  | task :: tasks' => pushTask_pair task ;; pushTask_each tasks'
  end.

(** [n] statements of the manager in a row, no other thread in between. *)
Fixpoint execute_steps (n : nat) (m : Manager) : Comp Manager :=
  match n with
  | O => mret m
  | S k => m' ← execute_step size_type m ; execute_steps k m'
  end.

(** A run of the system with the log of all its actions. *)
Fixpoint run_log (acts : list Action) (s : Pool) : option (Pool * list event) :=
  match acts with
  | [] => Some (s, [])
  | a :: acts' =>
      match perform size_type a s with
      | Some (s1, log1) =>
          match run_log acts' s1 with
          | Some (s2, log2) => Some (s2, log1 ++ log2)
          | None => None
          end
      | None => None
      end
  end.

Definition is_manager_step (a : Action) : bool :=
  match a with Manager_step => true | _ => false end.

(** The tasks that an action submits. *)
Definition submitted (a : Action) : list TaskPair :=
  match a with
  | Call_pushTask process callback => [(process, callback)]
  | Call_pushTask_pair task => [task]
  | Call_pushTask_list tasks => tasks
  | _ => []
  end.

(** The task that the manager hands to a worker in an action: the front of
    the queue, when the manager is at line 269 and the worker at [it] accepts
    the task and starts. *)
Definition dispatched (a : Action) (s : Pool) : list TaskPair :=
  match a with
  | Manager_step =>
      match pc (manager s), threadTable (data s) !! it (manager s),
            Queue.front (taskQueue (data s)) with
      | Configure, Some w, Some task => if hand_off w task then [task] else []
      | _, _, _ => []
      end
  | _ => []
  end.

(** The task that a worker takes from the queue in an action. *)
Definition fetched (a : Action) (s : Pool) : list TaskPair :=
  match a with
  | Worker_fetch =>
      match Queue.front (taskQueue (data s)) with
      | Some task => [task]
      | None => []
      end
  | _ => []
  end.

(** The tasks that leave the queue in a run, in the order in which they
    leave it. *)
Fixpoint leaves (acts : list Action) (s : Pool) : list TaskPair :=
  match acts with
  | [] => []
  | a :: acts' =>
      match perform size_type a s with
      | Some (s', _) => dispatched a s ++ fetched a s ++ leaves acts' s'
      | None => []
      end
  end.

(** The tasks that the manager hands to workers in a run. *)
Fixpoint dispatches (acts : list Action) (s : Pool) : list TaskPair :=
  match acts with
  | [] => []
  | a :: acts' =>
      match perform size_type a s with
      | Some (s', _) => dispatched a s ++ dispatches acts' s'
      | None => []
      end
  end.

(** The capacity that an action leaves: [setMaxThreads] stores its argument,
    or one when that is not positive. *)
Definition capacity_after (capacity : Z) (a : Action) : Z :=
  match a with
  | Call_setMaxThreads maxThreads => if maxThreads >? 0 then maxThreads else 1
  | _ => capacity
  end.

Definition destroys (log : list event) : nat :=
  length (filter (λ e, e = DestroyWorker) log).

(** The program points of the scan at which the iterator [it] is used or is
    about to be used. *)
Definition in_scan (l : label) : bool :=
  match l with
  | If_thread_free | Lock_tasks | While_empty | Wait_task | Blocked_task
  | If_closed | Configure => true
  | _ => false
  end.

(** The manager has thrown nothing and is about to read nothing that is not
    there: its lockers are as its program point requires, its iterator points
    into the table during the scan, and the queue has a front when the manager
    is about to take it. *)
Definition manager_safe (m : Manager) (d : Data) : Prop :=
  lock_discipline m ∧
  pc m ≠ Error ∧
  (in_scan (pc m) = true → (it m < length (threadTable d))%nat) ∧
  (pc m = Configure → taskQueue d ≠ []).

(** The statements that the manager still has to run, at most, once the pool
    is closed. *)
Definition distance (l : label) : nat :=
  match l with
  | Done | Error => 0
  | Return => 1
  | Destroy | If_closed => 2
  | While_closed | Break_closed | Wait_task => 3
  | Unlock_threads | Wait_free | Blocked_task => 4
  | For | Blocked_free => 5
  | If_free | Unlock_tasks => 6
  | Lock_threads | Configure => 7
  | While_empty => 8
  | Lock_tasks => 9
  | If_thread_free => 10
  end%nat.

(** The manager has not yet run the teardown of the workers. *)
Definition before_teardown (l : label) : bool :=
  match l with Return | Done | Error => false | _ => true end.

End Lifecycle.

(** Runs of the system on concrete workers. *)

(** A task is submitted and the manager comes to line 269 with it. *)
Definition submit_and_scan : list (@action worker nat) :=
  Call_pushTask 1%nat 2%nat :: replicate 7 Manager_step.

(** A task is submitted, the manager comes to line 256 and the pool is shut
    down. *)
Definition shutdown_in_scan : list (@action worker nat) :=
  Call_pushTask 1%nat 2%nat :: replicate 6 Manager_step ++ [Call_destroy].

(** The manager runs to its end while another thread submits a task. *)
Definition manager_to_end : list (@action worker nat) :=
  replicate 5 Manager_step ++ [Call_pushTask 3%nat 4%nat] ++ replicate 5 Manager_step.

(** A thread grows the pool by one worker while the manager starts. *)
Definition grow_by_one : list (@action worker nat) :=
  [Call_setThreads 3; Setter_step; Setter_step; Manager_step; Setter_step;
   Setter_step; Setter_step; Setter_step; Setter_step; Setter_step].

(** What the threads do to a pool whose manager has ended. *)
Definition after_the_manager : list (@action worker nat) :=
  [Call_pushTask 1%nat 2%nat; Manager_step; Call_setThreads 3; Setter_step;
   Setter_step; Setter_step; Setter_step; Worker_callback true 0%nat;
   Manager_step].

(** The pool of [closed_system] once its manager has ended. *)
Definition ended_system : @System worker nat :=
  match run size_t (replicate 3 Manager_step) closed_system with
  | Some s => s
  | None => closed_system
  end.

(** Two threads store a capacity while the manager runs. *)
Definition capacity_changes : list (@action worker nat) :=
  [Call_setMaxThreads 8; Manager_step; Call_setMaxThreads 0; Manager_step].

(** Three tasks are submitted; a worker takes the first by itself and the
    manager hands the second to the worker of the pool. *)
Definition submit_fetch_dispatch : list (@action worker nat) :=
  Call_pushTask_list [(1%nat, 2%nat); (3%nat, 4%nat); (5%nat, 6%nat)] ::
  Worker_fetch :: replicate 8 Manager_step.




(** ** Integer facts *)

Ltac int_cases t :=
  destruct t as [[] []];
  unfold in_range, wrap, to_size_t, min_value, max_value, modulus, bits in *;
  cbn [it_signed it_width size_t] in *;
  repeat match goal with
    | |- context [2 ^ ?n] => let v := eval vm_compute in (2 ^ n) in change (2 ^ n) with v
    | H : context [2 ^ ?n] |- _ => let v := eval vm_compute in (2 ^ n) in change (2 ^ n) with v in H
    end;
  repeat match goal with
    | |- context [?a / 2] => let v := eval vm_compute in (a / 2) in change (a / 2) with v
    | H : context [?a / 2] |- _ => let v := eval vm_compute in (a / 2) in change (a / 2) with v in H
    end.

Lemma wrap_in_range t z : in_range t z → wrap t z = z.
Proof.
  intros Hz. int_cases t; rewrite Z.mod_small by lia; lia.
Qed.

Lemma max_value_size_t t : max_value t < 2 ^ 64.
Proof. int_cases t; lia. Qed.

Lemma min_value_nonpos t : min_value t <= 0.
Proof. int_cases t; lia. Qed.

Lemma max_value_at_least t : 3 <= max_value t.
Proof. int_cases t; lia. Qed.

Lemma range_below_size_t t : - 2 ^ 64 < min_value t - max_value t.
Proof. int_cases t; lia. Qed.

(** A difference of two values of the type that is negative wraps, in
    [std::size_t], to a positive number. *)
Lemma to_size_t_negative z :
  - 2 ^ 64 < z < 0 → to_size_t z = 2 ^ 64 + z.
Proof.
  intros Hz. unfold to_size_t, wrap, min_value, max_value, modulus, size_t. cbn [it_signed it_width bits].
  change (2^64) with 18446744073709551616 in *.
  rewrite Z.sub_0_r, Z.add_0_l.
  rewrite <- (Z.mod_add z 1) by lia. rewrite Z.mod_small; lia.
Qed.


Lemma to_size_t_small z : 0 <= z < 2 ^ 64 → to_size_t z = z.
Proof.
  intros Hz. apply wrap_in_range. unfold in_range, min_value, max_value, modulus, size_t.
  cbn [it_signed it_width bits]. lia.
Qed.

(** ** Logs *)


Lemma notifications_app log1 log2 :
  notifications (log1 ++ log2) = (notifications log1 + notifications log2)%nat.
Proof. unfold notifications. by rewrite filter_app, length_app. Qed.


(** ** Computations of the monad *)

Section Facts.

Context {Thread functor : Type}.
Abbreviation TaskPair := (functor * functor)%type.
Context `{!Thread.Ops Thread TaskPair}.
Context `{!Vector.Limits}.
Variable size_type : int_type.

Abbreviation Data := (@ThreadPoolStructure Thread functor).
Abbreviation Pool := (@System Thread functor).
Abbreviation keeps_closed := (preserves (@is_closed Thread functor)).

Lemma with_threadTable_id (d : Data) : with_threadTable (threadTable d) d = d.
Proof. by destruct d. Qed.

(** The loop that fills the worker table. *)
Lemma for_counter_push_back n (d : Data) :
  for_counter n push_back d =
    (tt, with_threadTable (threadTable d ++ replicate n Thread.make) d,
     replicate n PushBack).
Proof.
  revert d. induction n as [|n IH]; intros d.
  - cbn. by rewrite app_nil_r, with_threadTable_id.
  - cbn [for_counter]. unfold mbind, M_bind.
    change (push_back d) with
      (tt, with_threadTable (threadTable d ++ [Thread.make]) d, [PushBack]).
    cbv beta iota. rewrite IH. cbn. by rewrite <- app_assoc.
Qed.

Lemma for_counter_emit n e (d : Data) :
  for_counter n (emit e) d = (tt, d, replicate n e).
Proof.
  induction n as [|n IH]; [done|].
  cbn [for_counter]. unfold mbind, M_bind.
  change (emit e d) with (tt, d, [e]). cbv beta iota. by rewrite IH.
Qed.

(** What [reserve] answers. *)
Lemma reserve_eq n (d : Data) :
  reserve n d =
    (if to_size_t n >? Vector.max_size then Throws length_error
     else if to_size_t n <=? Z.of_nat (length (threadTable d)) then Returns tt
     else if Vector.allocate (to_size_t n) then Returns tt
     else Throws bad_alloc,
     d, []).
Proof. reflexivity. Qed.

(** [reserve] returns when the request is within [max_size()] and the storage
    is there or can be had. *)
Lemma reserve_returns n (d : Data) :
  0 <= n < 2 ^ 64 →
  n <= Vector.max_size →
  (Z.of_nat (length (threadTable d)) < n → Vector.allocate n = true) →
  reserve n d = (Returns tt, d, []).
Proof.
  intros Hn Hmax Hgranted. rewrite reserve_eq, to_size_t_small by done.
  destruct (Z.gtb_spec n Vector.max_size) as [?|_]; [lia|].
  destruct (Z.leb_spec n (Z.of_nat (length (threadTable d)))) as [_|Hmore]; [done|].
  by rewrite Hgranted.
Qed.

(** What [setThreads] computes, branch by branch. *)
Lemma setThreads_eq threads (d : Data) :
  setThreads size_type threads d =
    if threads >? maxThreads d then (Returns false, d, [])
    else
      let number := to_size_t (threads - Z.of_nat (length (threadTable d))) in
      if number >? 0 then
        match result (reserve threads d) with
        | Throws e => (Throws e, d, [Lock pool_mutex; Unlock pool_mutex])
        | Returns _ =>
            let free := wrap size_type (freeThreads d + wrap size_type number) in
            (Returns true,
             with_freeThreads free
               (with_threadTable
                  (threadTable d ++ replicate (Z.to_nat number) Thread.make) d),
             Lock pool_mutex :: replicate (Z.to_nat number) PushBack ++
             Unlock pool_mutex ::
             (if to_size_t free =? number then [NotifyOne] else []))
        end
      else (Returns false, d, []).
Proof.
  unfold setThreads, mbind, M_bind, getMaxThreads, table_size, get.
  cbn [fst snd]. destruct (threads >? maxThreads d); [done|].
  set (number := to_size_t _).
  destruct (number >? 0) eqn:Hpos.
  - unfold emit. cbv beta iota. rewrite !reserve_eq. cbn [result fst snd app].
    destruct (if to_size_t threads >? Vector.max_size then _ else _) as [[]|e];
      [|done].
    unfold mret, M_ret, modify. rewrite for_counter_push_back. cbn.
    by destruct (to_size_t _ =? number).
  - by destruct (number <? 0).
Qed.


(** A request below the size of the table is not rejected: the difference
    wraps in [std::size_t] and the growth branch runs.  [reserve] has nothing
    to do, the table being larger than the request. *)
Lemma setThreads_shrink threads (d : Data) :
  0 <= threads <= Vector.max_size →
  in_range size_type threads →
  Z.of_nat (length (threadTable d)) <= max_value size_type →
  threads < Z.of_nat (length (threadTable d)) →
  threads <= maxThreads d →
  result (setThreads size_type threads d) = Returns true ∧
  Z.of_nat (length (threadTable (state (setThreads size_type threads d))))
    = 2 ^ 64 + threads.
Proof.
  intros Hsmall [Hmin Htop] Hfit Hlt Hmax. rewrite setThreads_eq.
  destruct (Z.gtb_spec threads (maxThreads d)) as [?|_]; [lia|].
  pose proof (range_below_size_t size_type) as Hbelow.
  pose proof (max_value_size_t size_type) as Hsize.
  cbv zeta. rewrite to_size_t_negative by lia.
  destruct (Z.gtb_spec (2 ^ 64 + (threads - Z.of_nat (length (threadTable d)))) 0)
    as [Hpos|?]; [|lia].
  rewrite reserve_returns by lia. cbn [result fst].
  split; [done|]. cbn [state fst snd with_freeThreads with_threadTable threadTable].
  rewrite length_app, length_replicate. lia.
Qed.

(** What the constructor computes. *)
Lemma ThreadPool_eq threads capacity :
  ThreadPool (Thread:=Thread) (functor:=functor) size_type threads capacity
    make_shared =
    let n := Z.to_nat (Z.min threads capacity) in
    match result (reserve (Z.min threads capacity)
                    (make_shared (Thread:=Thread) (functor:=functor))) with
    | Throws e =>
        (Throws e,
         {| threadTable := []; taskQueue := []; thread := false; closed := false;
            maxThreads := (if capacity >? 0 then capacity else 1);
            freeThreads := 0 |},
         [])
    | Returns _ =>
        (Returns tt,
         {| threadTable := replicate n Thread.make;
            taskQueue := []; thread := true; closed := false;
            maxThreads := (if capacity >? 0 then capacity else 1);
            freeThreads :=
              wrap size_type (Z.of_nat (length (replicate (A:=Thread) n Thread.make))) |},
         replicate n PushBack ++ [Spawn])
    end.
Proof.
  unfold ThreadPool, mbind, M_bind, setClosed, setMaxThreads, modify.
  cbv zeta. rewrite !reserve_eq.
  cbn [result fst snd make_shared threadTable with_closed with_maxThreads
       taskQueue thread closed maxThreads freeThreads length].
  destruct (if to_size_t (Z.min threads capacity) >? Vector.max_size
            then _ else _) as [[]|e]; [|done].
  unfold table_size, get, emit, mret, M_ret. rewrite for_counter_push_back.
  reflexivity.
Qed.


(** *** Submission *)

Lemma pushTask_pair_eq task (d : Data) :
  pushTask_pair task d =
    (tt, with_taskQueue (taskQueue d ++ [task]) d,
     Lock queue_mutex :: Unlock queue_mutex ::
     (if Queue.empty (taskQueue d) then [NotifyOne] else [])).
Proof.
  unfold pushTask_pair, taskQueue_push, taskQueue_size, mbind, M_bind, emit,
    modify, get, Queue.push, Queue.size.
  cbn [taskQueue with_taskQueue].
  assert (Hone : (Z.of_nat (length (taskQueue d ++ [task])) =? 1)
                 = Queue.empty (taskQueue d)).
  { rewrite length_app. cbn [length].
    destruct (taskQueue d); cbn [Queue.empty length]; [done|].
    apply Z.eqb_neq. lia. }
  rewrite Hone. by destruct (Queue.empty (taskQueue d)).
Qed.

Lemma pushTask_eq process callback (d : Data) :
  pushTask process callback d = pushTask_pair (process, callback) d.
Proof. reflexivity. Qed.

Lemma pushTask_list_eq tasks (d : Data) :
  pushTask_list tasks d =
    (tt, with_taskQueue (taskQueue d ++ tasks) d,
     Lock queue_mutex :: Unlock queue_mutex ::
     (if Queue.empty (taskQueue d) then [NotifyOne] else [])).
Proof.
  unfold pushTask_list, taskQueue_push_list, taskQueue_size, mbind, M_bind,
    emit, modify, get, Queue.push_list, Queue.size.
  cbn [taskQueue with_taskQueue].
  assert (Hsame : (Z.of_nat (length (taskQueue d ++ tasks)) =? Z.of_nat (length tasks))
                  = Queue.empty (taskQueue d)).
  { rewrite length_app.
    destruct (taskQueue d); cbn [Queue.empty length].
    - apply Z.eqb_eq. lia.
    - apply Z.eqb_neq. lia. }
  rewrite Hsame. by destruct (Queue.empty (taskQueue d)).
Qed.

Lemma taskQueue_pop_eq (d : Data) :
  taskQueue_pop d =
    (tt, with_taskQueue (Queue.pop (taskQueue d)) d,
     [Lock queue_mutex; Unlock queue_mutex]).
Proof. reflexivity. Qed.

Lemma notifications_wake (b : bool) :
  notifications (Lock queue_mutex :: Unlock queue_mutex ::
                 (if b then [NotifyOne] else [])) = if b then 1%nat else 0%nat.
Proof. by destruct b. Qed.

(** C5, as the code has it: a single submission notifies the signal exactly
    once iff the queue was empty before the push, which is iff the push takes
    the queue from empty to non-empty, and not at all otherwise.  A batch
    submission notifies exactly once iff the queue was empty before the batch,
    which is iff the size of the queue after the push equals the size of the
    batch, and not at all otherwise; for a batch that is not empty this is
    the step from empty to non-empty. *)
Theorem pushTask_notifies :
  (∀ process callback (d : Data),
     let r := pushTask process callback d in
     notifications (log r) = (if Queue.empty (taskQueue d) then 1%nat else 0%nat) ∧
     (notifications (log r) = 1%nat ↔ empty_to_nonempty d (state r))) ∧
  (∀ task (d : Data),
     let r := pushTask_pair task d in
     notifications (log r) = (if Queue.empty (taskQueue d) then 1%nat else 0%nat) ∧
     (notifications (log r) = 1%nat ↔ empty_to_nonempty d (state r))) ∧
  (∀ tasks (d : Data),
     let r := pushTask_list tasks d in
     notifications (log r) = (if Queue.empty (taskQueue d) then 1%nat else 0%nat) ∧
     (notifications (log r) = 1%nat ↔
        Queue.size (taskQueue (state r)) = Z.of_nat (length tasks)) ∧
     (tasks ≠ [] →
        (notifications (log r) = 1%nat ↔ empty_to_nonempty d (state r)))).
Proof.
  assert (Hone : ∀ task (d : Data),
     let r := pushTask_pair task d in
     notifications (log r) = (if Queue.empty (taskQueue d) then 1%nat else 0%nat) ∧
     (notifications (log r) = 1%nat ↔ empty_to_nonempty d (state r))).
  { intros task d r. unfold r. rewrite pushTask_pair_eq.
    cbn [log state fst snd]. rewrite notifications_wake.
    unfold empty_to_nonempty. cbn [with_taskQueue taskQueue].
    split; [done|].
    destruct (taskQueue d) as [|t q] eqn:Hq; cbn [Queue.empty].
    - split; [|done]. intros _. by split.
    - split; [done|]. by intros [? _]. }
  split_and!.
  - intros process callback d. apply Hone.
  - apply Hone.
  - intros tasks d r. unfold r. rewrite pushTask_list_eq.
    cbn [log state fst snd]. rewrite notifications_wake.
    unfold empty_to_nonempty, Queue.size. cbn [with_taskQueue taskQueue].
    rewrite length_app.
    destruct (taskQueue d) as [|t q] eqn:Hq; cbn [Queue.empty length app].
    + split_and!; [done|split; [lia|done]|].
      intros Hne. split; [|done]. intros _. by split.
    + split_and!; [done|split; [done|lia]|].
      intros _. split; [done|]. by intros [? _].
Qed.

(** C10: a batch submission of no task leaves the pool as it is; on an empty
    queue it notifies the signal once although the queue does not go from
    empty to non-empty, on a queue that is not empty it does not notify. *)
Theorem pushTask_list_nil (d : Data) :
  let r := pushTask_list [] d in
  state r = d ∧
  ¬ empty_to_nonempty d (state r) ∧
  (taskQueue d = [] → notifications (log r) = 1%nat) ∧
  (taskQueue d ≠ [] → notifications (log r) = 0%nat).
Proof.
  intros r. unfold r. rewrite pushTask_list_eq.
  cbn [log state fst snd]. rewrite notifications_wake, app_nil_r.
  assert (Hsame : with_taskQueue (taskQueue d) d = d) by by destruct d.
  rewrite Hsame. unfold empty_to_nonempty. split_and!.
  - done.
  - by intros [? ?].
  - by intros ->.
  - by destruct (taskQueue d).
Qed.

(** *** Shutdown *)

Lemma destroy_eq (d : Data) :
  destroy d =
    if closed d then (tt, d, [])
    else (tt, with_thread false (with_closed true d), [Detach; NotifyOne]).
Proof.
  unfold destroy, mbind, M_bind, getClosed, get. by destruct (closed d).
Qed.

(** C8: a call of [destroy] on a pool that is closed changes nothing and logs
    nothing, so that two calls in a row leave the state and the log of one
    call; the call on an open pool sets [closed], detaches the manager thread
    and notifies the signal once. *)
Theorem destroy_idempotent (d : Data) :
  let r1 := destroy d in
  let r2 := destroy (state r1) in
  closed (state r1) = true ∧
  state r2 = state r1 ∧
  log r2 = [] ∧
  (destroy ;; destroy) d = destroy d ∧
  (closed d = false →
     state r1 = with_thread false (with_closed true d) ∧
     thread (state r1) = false ∧
     log r1 = [Detach; NotifyOne] ∧
     notifications (log r1) = 1%nat) ∧
  (closed d = true → state r1 = d ∧ log r1 = []).
Proof.
  intros r1 r2.
  assert (Hclosed : closed (state r1) = true).
  { unfold r1. rewrite destroy_eq. by destruct (closed d) eqn:Hc. }
  assert (Hr2 : r2 = (tt, state r1, [])).
  { unfold r2. rewrite destroy_eq. by rewrite Hclosed. }
  split_and!; try done.
  - by rewrite Hr2.
  - by rewrite Hr2.
  - unfold mbind, M_bind. fold r1. destruct r1 as [[[] d1] log1] eqn:Hr1.
    cbn [state fst snd] in *. fold r2. rewrite Hr2. cbn [state fst snd].
    by rewrite app_nil_r.
  - intros Hopen. unfold r1. rewrite destroy_eq, Hopen. by split_and!.
  - intros Hc. unfold r1. by rewrite destroy_eq, Hc.
Qed.

(** *** Properties of the data that a computation keeps *)

Lemma preserves_ret {A : Type} (P : Data → Prop) (a : A) : preserves P (mret a).
Proof. by intros d. Qed.

Lemma preserves_get {A : Type} (P : Data → Prop) (f : Data → A) :
  preserves P (get f).
Proof. by intros d. Qed.

Lemma preserves_emit (P : Data → Prop) e : preserves P (emit e).
Proof. by intros d. Qed.

Lemma preserves_modify (P : Data → Prop) (f : Data → Data) :
  (∀ d, P d → P (f d)) → preserves P (modify f).
Proof. intros Hf d. apply Hf. Qed.

Lemma preserves_bind {A B : Type} (P : Data → Prop) (c : M A) (k : A → M B) :
  preserves P c → (∀ a, preserves P (k a)) → preserves P (c ≫= k).
Proof.
  intros Hc Hk d HP. unfold mbind, M_bind.
  specialize (Hc d HP). destruct (c d) as [[a d1] log1]. cbn in Hc.
  specialize (Hk a d1 Hc). by destruct (k a d1) as [[b d2] log2].
Qed.

Lemma preserves_for_counter (P : Data → Prop) n (body : M unit) :
  preserves P body → preserves P (for_counter n body).
Proof.
  intros Hbody. induction n as [|n IH]; cbn [for_counter].
  - apply preserves_ret.
  - by apply preserves_bind.
Qed.

Lemma preserves_if {A : Type} (P : Data → Prop) (b : bool) (c1 c2 : M A) :
  preserves P c1 → preserves P c2 → preserves P (if b then c1 else c2).
Proof. by destruct b. Qed.

(** Splits a computation along its binds, branches and matches. *)
Ltac preserves_steps :=
  repeat first
    [ apply preserves_ret
    | apply preserves_get
    | apply preserves_emit
    | apply preserves_for_counter
    | apply preserves_bind; [|intros]
    | apply preserves_modify; intros ? ?; assumption
    | progress cbv beta
    | case_match ].

Lemma setThreads_closed threads : keeps_closed (setThreads size_type threads).
Proof. unfold setThreads, getMaxThreads, table_size, reserve, push_back, notify_one.
  preserves_steps. Qed.

Lemma pushTask_pair_closed task : keeps_closed (pushTask_pair task).
Proof.
  unfold pushTask_pair, taskQueue_push, taskQueue_size, notify_one. preserves_steps.
Qed.

Lemma pushTask_list_closed tasks : keeps_closed (pushTask_list tasks).
Proof.
  unfold pushTask_list, taskQueue_push_list, taskQueue_size, notify_one.
  preserves_steps.
Qed.

Lemma destroy_closed : keeps_closed destroy.
Proof.
  unfold destroy, getClosed, setClosed, detach, notify_one. preserves_steps.
  apply preserves_modify. by intros.
Qed.

Lemma callback_closed free id : keeps_closed (callback size_type free id).
Proof. unfold callback, notify_one. preserves_steps. Qed.

Lemma execute_step_closed m : keeps_closed (execute_step size_type m).
Proof.
  unfold execute_step, locker_lock, locker_unlock, destroy_workers,
    configure_and_start, getClosed.
  preserves_steps.
Qed.

(** *** The call of [setThreads] in steps *)





Lemma bind_eq {A B : Type} (c : M A) (k : A → M B) (d : Data) a d1 log1 :
  c d = (a, d1, log1) →
  (c ≫= k) d = (result (k a d1), state (k a d1), log1 ++ log (k a d1)).
Proof.
  intros Hc. unfold mbind, M_bind. rewrite Hc. by destruct (k a d1) as [[b d2] log2].
Qed.




Lemma setThreads_step_check c (d : Data) :
  setter_pc c = Check_max →
  setThreads_step size_type c d =
    (setter_goto (if setter_threads c >? maxThreads d then Returned false
                  else Difference) c, d, []).
Proof. intros Hpc. unfold setThreads_step. by rewrite Hpc. Qed.

Lemma setThreads_step_difference c (d : Data) :
  setter_pc c = Difference →
  setThreads_step size_type c d =
    (let number := to_size_t (setter_threads c - Z.of_nat (length (threadTable d))) in
     if number >? 0 then setter_goto Lock_table (with_number number c)
     else setter_goto (Returned false) c, d, []).
Proof.
  intros Hpc. unfold setThreads_step. rewrite Hpc.
  unfold mbind, M_bind, table_size, get, mret, M_ret. cbv zeta.
  set (number := to_size_t _).
  by destruct (number >? 0), (number <? 0).
Qed.

Lemma setThreads_step_lock c (d : Data) :
  setter_pc c = Lock_table →
  setThreads_step size_type c d =
    match result (reserve (setter_threads c) d) with
    | Throws e =>
        (setter_goto (Thrown e) c, d, [Lock pool_mutex; Unlock pool_mutex])
    | Returns _ =>
        (setter_goto Push_loop (with_counter 0 c), d, [Lock pool_mutex])
    end.
Proof.
  intros Hpc. unfold setThreads_step. rewrite Hpc.
  unfold mbind, M_bind, emit. cbv beta iota. rewrite !reserve_eq.
  cbn [result fst].
  by destruct (if to_size_t (setter_threads c) >? Vector.max_size then _ else _)
    as [[]|e].
Qed.

Lemma setThreads_step_unlock c (d : Data) :
  setter_pc c = Unlock_table →
  setThreads_step size_type c d = (setter_goto Add_free c, d, [Unlock pool_mutex]).
Proof. intros Hpc. unfold setThreads_step. by rewrite Hpc. Qed.

Lemma setThreads_step_add c (d : Data) :
  setter_pc c = Add_free →
  setThreads_step size_type c d =
    (setter_goto Notify c,
     with_freeThreads
       (wrap size_type (freeThreads d + wrap size_type (setter_number c))) d, []).
Proof. intros Hpc. unfold setThreads_step. by rewrite Hpc. Qed.

Lemma setThreads_step_notify c (d : Data) :
  setter_pc c = Notify →
  setThreads_step size_type c d =
    (setter_goto (Returned true) c, d,
     if to_size_t (freeThreads d) =? setter_number c then [NotifyOne] else []).
Proof.
  intros Hpc. unfold setThreads_step. rewrite Hpc.
  unfold mbind, M_bind, get, notify_one, emit, mret, M_ret.
  by destruct (_ =? _).
Qed.




(** *** The system *)

Lemma setThreads_step_closed c : keeps_closed (setThreads_step size_type c).
Proof.
  unfold setThreads_step, getMaxThreads, table_size, reserve, push_back, notify_one.
  preserves_steps.
Qed.

Lemma call_data {A : Type} (c : M A) (s s' : Pool) l :
  call c s = Some (s', l) →
  data s' = state (c (data s)) ∧ manager s' = manager s ∧
  setter s' = setter s ∧ l = log (c (data s)).
Proof.
  unfold call. destruct (takes _ _); [done|].
  intros [= <- <-]. by split_and!.
Qed.

Lemma perform_closed a (s s' : Pool) l :
  perform size_type a s = Some (s', l) →
  is_closed (data s) → is_closed (data s').
Proof.
  destruct a; cbn [perform].
  - case_match; [done|]. intros [= <- <-] Hc. by apply execute_step_closed.
  - case_match; [done|]. by intros [= <- <-].
  - destruct (setter s) as [c|]; [|done].
    destruct (setter_pc c) eqn:Hpc;
      try (case_match; [done|]; intros [= <- <-] Hc; by apply setThreads_step_closed);
      by intros [= <- <-].
  - intros (-> & _)%call_data Hc. by apply pushTask_pair_closed.
  - intros (-> & _)%call_data Hc. by apply pushTask_pair_closed.
  - intros (-> & _)%call_data Hc. by apply pushTask_list_closed.
  - intros (-> & _)%call_data Hc. by apply destroy_closed.
  - intros (-> & _)%call_data Hc. done.
  - intros (-> & _)%call_data Hc. by apply callback_closed.
  - intros (-> & _)%call_data Hc. done.
  - intros (-> & _)%call_data Hc. done.
Qed.

(** C9: once [closed] is true it stays true, whatever the manager thread, the
    callers of [setThreads], [pushTask], [destroy] and [setMaxThreads] and the
    workers do, in any order. *)
Theorem closed_is_terminal acts (s s' : Pool) :
  closed (data s) = true →
  run size_type acts s = Some s' →
  closed (data s') = true.
Proof.
  revert s. induction acts as [|a acts IH]; intros s Hc; cbn [run].
  - by intros [= <-].
  - destruct (perform size_type a s) as [[s1 l]|] eqn:Ha; [|done].
    apply IH. by eapply perform_closed.
Qed.

(** *** The two mutexes *)

Lemma destroy_workers_eq (d : Data) :
  destroy_workers d =
    (tt, with_threadTable (map Thread.destroy (threadTable d)) d,
     replicate (length (threadTable d)) DestroyWorker).
Proof.
  unfold destroy_workers, mbind, M_bind, get, modify.
  by rewrite for_counter_emit.
Qed.

Lemma execute_step_lock_discipline m (d : Data) :
  lock_discipline m → lock_discipline (result (execute_step size_type m d)).
Proof.
  destruct m as [l tl ql i]. unfold lock_discipline at 1.
  cbn [pc threadLocker taskLocker].
  destruct l; intros Hm;
    lazymatch type of Hm with
    | _ ∧ _ => destruct Hm as [-> ->]
    | _ → _ => destruct ql, tl; try (by specialize (Hm eq_refl)); clear Hm
    | _ => subst ql
    end;
    unfold execute_step, locker_lock, locker_unlock, configure_and_start,
      mbind, M_bind, getClosed, get, emit, mret, M_ret, modify;
    cbn [pc threadLocker taskLocker it];
    rewrite ?destroy_workers_eq;
    repeat case_match; simplify_eq; cbn; try done; try (by split).
Qed.

Lemma perform_manager a (s s' : Pool) l :
  a ≠ Manager_step → perform size_type a s = Some (s', l) → manager s' = manager s.
Proof.
  destruct a; cbn [perform]; try done; intros _;
    try (by intros (_ & -> & _)%call_data).
  - case_match; [done|]. by intros [= <- <-].
  - repeat case_match; try done; by intros [= <- <-].
Qed.

Lemma perform_lock_discipline a (s s' : Pool) l :
  perform size_type a s = Some (s', l) →
  lock_discipline (manager s) → lock_discipline (manager s').
Proof.
  destruct a;
    try (intros Ha; apply perform_manager in Ha as ->; done).
  cbn [perform]. case_match; [done|]. intros [= <- <-].
  apply execute_step_lock_discipline.
Qed.

Lemma run_lock_discipline acts (s s' : Pool) :
  run size_type acts s = Some s' →
  lock_discipline (manager s) → lock_discipline (manager s').
Proof.
  revert s. induction acts as [|a acts IH]; intros s; cbn [run].
  - by intros [= <-].
  - destruct (perform size_type a s) as [[s1 l]|] eqn:Ha; [|done].
    intros Hrun Hs. apply (IH _ Hrun). by eapply perform_lock_discipline.
Qed.

Lemma lock_discipline_order m :
  lock_discipline m → taskLocker m = true → threadLocker m = true.
Proof.
  unfold lock_discipline. destruct (pc m); intros H1 H2; try done;
    try (by destruct H1); try (destruct H1; congruence); try congruence.
Qed.

Lemma max_held_ge held log : (length held ≤ max_held held log)%nat.
Proof. destruct log; cbn [max_held]; lia. Qed.

Lemma max_held_replicate held n e log :
  held_after held e = held →
  max_held held (replicate n e ++ log) = max_held held log.
Proof.
  intros He. induction n as [|n IH]; [done|].
  cbn [replicate app max_held]. rewrite He, IH.
  pose proof (max_held_ge held log). lia.
Qed.

Lemma setThreads_max_held threads (d : Data) :
  (max_held [] (log (setThreads size_type threads d)) ≤ 1)%nat.
Proof.
  rewrite setThreads_eq. cbv zeta.
  destruct (threads >? maxThreads d); [cbn; lia|].
  destruct (to_size_t _ >? 0); [|cbn; lia].
  destruct (result (reserve threads d)) as [[]|e]; [|vm_compute; lia].
  cbn [log snd max_held length held_after].
  rewrite max_held_replicate by done.
  destruct (to_size_t _ =? _); vm_compute; lia.
Qed.

Lemma setThreads_step_max_held c (d : Data) :
  (max_held (if setter_owns (Some c) then [pool_mutex] else [])
     (log (setThreads_step size_type c d)) ≤ 1)%nat.
Proof.
  unfold setter_owns. destruct (setter_pc c) eqn:Hpc.
  - rewrite setThreads_step_check by done. cbn. lia.
  - rewrite setThreads_step_difference by done. cbn [log snd max_held length]. lia.
  - rewrite setThreads_step_lock by done.
    destruct (result (reserve (setter_threads c) d)) as [[]|e];
      cbn [log snd]; vm_compute; lia.
  - unfold setThreads_step. rewrite Hpc.
    destruct (setter_counter c <? setter_number c); cbn [log snd]; vm_compute; lia.
  - rewrite setThreads_step_unlock by done. cbn [log snd]. vm_compute. lia.
  - rewrite setThreads_step_add by done. cbn. lia.
  - rewrite setThreads_step_notify by done.
    destruct (to_size_t _ =? _); cbn; lia.
  - unfold setThreads_step. rewrite Hpc. cbn. lia.
  - unfold setThreads_step. rewrite Hpc. cbn. lia.
Qed.

Lemma callback_max_held free id (d : Data) :
  (max_held [] (log (callback size_type free id d)) ≤ 1)%nat.
Proof.
  unfold callback, mbind, M_bind, modify, get, notify_one, emit.
  destruct free; [|cbn; lia]. cbn [freeThreads with_freeThreads].
  destruct (_ =? 1); cbn; lia.
Qed.

(** C2, as the code has it: the manager owns the queue mutex only while it
    owns the pool mutex, which it takes first; it owns both from line 253 to
    line 275, except inside the wait of line 260.  The thread of any other
    action, a statement of [setThreads] or a call of [pushTask] or [destroy]
    or [setMaxThreads], the callback of a worker or a worker that takes a
    task, never holds more than one mutex. *)
Theorem mutexes_nested threads maxThreads acts (s : Pool) :
  run size_type acts (new_pool size_type threads maxThreads) = Some s →
  (owns (manager s) queue_mutex = true → owns (manager s) pool_mutex = true) ∧
  (∀ a s' l, a ≠ Manager_step →
     perform size_type a s = Some (s', l) →
     (max_held (held_before a s) l ≤ 1)%nat).
Proof.
  intros Hrun. split.
  - apply lock_discipline_order. apply (run_lock_discipline _ _ _ Hrun).
    by split.
  - intros a s' l Ha. destruct a; cbn [perform held_before]; [done|..];
      try intros (_ & _ & _ & ->)%call_data.
    + case_match; [done|]. intros [= <- <-]. cbn. lia.
    + destruct (setter s) as [c|]; [|done].
      destruct (setter_pc c) eqn:Hpc;
        try (case_match; [done|]; intros [= <- <-];
             apply setThreads_step_max_held);
        intros [= <- <-]; unfold setter_owns; rewrite Hpc; cbn; lia.
    + rewrite pushTask_eq, pushTask_pair_eq. cbn [log snd].
      case_match; vm_compute; lia.
    + rewrite pushTask_pair_eq. cbn [log snd]. case_match; vm_compute; lia.
    + rewrite pushTask_list_eq. cbn [log snd]. case_match; vm_compute; lia.
    + rewrite destroy_eq. case_match; cbn; lia.
    + cbn. lia.
    + apply callback_max_held.
    + cbn. lia.
    + vm_compute. lia.
Qed.

(** The pool mutex excludes: the manager and the caller of [setThreads] never
    own it together. *)
Lemma execute_step_acquires m (d : Data) taken :
  threadLocker m = false →
  threadLocker (result (execute_step size_type m d)) = true →
  taken pool_mutex = true →
  takes taken (log (execute_step size_type m d)) = true.
Proof.
  destruct m as [l tl ql i]. cbn [threadLocker]. intros -> Hafter Htaken.
  revert Hafter.
  destruct l;
    unfold execute_step, locker_lock, locker_unlock, configure_and_start,
      mbind, M_bind, getClosed, get, emit, mret, M_ret, modify;
    cbn [pc threadLocker taskLocker it];
    rewrite ?destroy_workers_eq;
    repeat case_match; simplify_eq; cbn; try done;
    intros _; by rewrite Htaken.
Qed.

Lemma setThreads_step_owns c (d : Data) :
  setter_owns (Some (result (setThreads_step size_type c d))) = true →
  setter_owns (Some c) = true ∨ setter_pc c = Lock_table.
Proof.
  unfold setter_owns, setThreads_step.
  destruct (setter_pc c) eqn:Hpc;
    unfold mbind, M_bind, getMaxThreads, table_size, get, emit, modify, reserve,
      push_back, notify_one, mret, M_ret;
    repeat match goal with |- context [if ?b then _ else _] => destruct b end;
    cbn [result fst setter_pc setter_goto with_number with_counter];
    rewrite ?Hpc; auto.
Qed.

Lemma perform_exclusive a (s s' : Pool) l :
  perform size_type a s = Some (s', l) → exclusive s → exclusive s'.
Proof.
  unfold exclusive. destruct a; cbn [perform];
    try (intros (_ & -> & -> & _)%call_data; done).
  - destruct (takes _ _) eqn:Htakes; [done|]. intros [= <- <-] Hs [Hm Hc].
    cbn [manager setter owns] in *.
    destruct (threadLocker (manager s)) eqn:Hbefore; [by apply Hs|].
    rewrite (execute_step_acquires _ _ (owned_by_others s) Hbefore Hm) in Htakes;
      done.
  - case_match; [done|]. intros [= <- <-] Hs [_ Hc]. done.
  - destruct (setter s) as [c|] eqn:Hsetter; [|done].
    assert (Hstep : ∀ s1 l1,
      (let r := setThreads_step size_type c (data s) in
       if takes (owned_by_manager s) (log r) then None
       else Some ({| data := state r; manager := manager s;
                     setter := Some (result r) |}, log r)) = Some (s1, l1) →
      ¬ (owns (manager s) pool_mutex = true ∧ setter_owns (Some c) = true) →
      ¬ (owns (manager s1) pool_mutex = true ∧ setter_owns (setter s1) = true)).
    { intros s1 l1. cbv zeta. destruct (takes _ _) eqn:Htakes; [done|].
      intros [= <- <-] Hs [Hm Hc]. cbn [manager setter] in *.
      apply setThreads_step_owns in Hc as [Hc|Hpc]; [by apply Hs|].
      rewrite setThreads_step_lock in Htakes by done.
      destruct (result (reserve (setter_threads c) (data s))) as [[]|e];
        unfold takes, owned_by_manager in Htakes;
        cbn [log snd existsb owns] in Htakes, Hm;
        rewrite ?orb_false_r in Htakes; congruence. }
    destruct (setter_pc c); try apply Hstep;
      intros [= <- <-] _ [_ Hc]; done.
Qed.

Lemma run_exclusive acts (s s' : Pool) :
  run size_type acts s = Some s' → exclusive s → exclusive s'.
Proof.
  revert s. induction acts as [|a acts IH]; intros s; cbn [run].
  - by intros [= <-].
  - destruct (perform size_type a s) as [[s1 l]|] eqn:Ha; [|done].
    intros Hrun Hs. apply (IH _ Hrun). by eapply perform_exclusive.
Qed.

(** *** The dispatch of a task *)

Lemma configure_and_start_eq i w task (d : Data) :
  configure_and_start size_type i w task d =
    let '(configured, w1) := Thread.configure w task in
    if configured : bool then
      let '(started, w2) := Thread.start w1 in
      let d1 := with_threadTable (<[i:=w2]> (threadTable d)) d in
      if started : bool then
        (true,
         with_freeThreads (wrap size_type (freeThreads d - 1))
           (with_taskQueue (Queue.pop (taskQueue d)) d1), [])
      else (false, d1, [])
    else (false, with_threadTable (<[i:=w1]> (threadTable d)) d, []).
Proof.
  unfold configure_and_start.
  destruct (Thread.configure w task) as [[] w1]; [|done].
  by destruct (Thread.start w1) as [[] w2].
Qed.

(** C7: the dispatch attempt of line 269, on the worker at [it] and a queue
    with the front task [task], while the idle count is positive.  When the
    worker takes the task, the queue loses exactly its front task and the idle
    count goes down by one; when it does not, the queue and the idle count
    stay as they are.  In both cases the manager releases the queue mutex and
    the scan goes on with the next worker. *)
Theorem dispatch_attempt m (d : Data) w task q :
  pc m = Configure →
  taskLocker m = true →
  threadTable d !! it m = Some w →
  taskQueue d = task :: q →
  0 < freeThreads d <= max_value size_type →
  let r := execute_step size_type m d in
  let r' := execute_step size_type (result r) (state r) in
  (if hand_off w task
   then taskQueue (state r) = q ∧ freeThreads (state r) = freeThreads d - 1
   else taskQueue (state r) = task :: q ∧ freeThreads (state r) = freeThreads d) ∧
  length (threadTable (state r)) = length (threadTable d) ∧
  pc (result r) = Unlock_tasks ∧
  state r' = state r ∧
  log r' = [Unlock queue_mutex] ∧
  pc (result r') = For ∧
  it (result r') = S (it m).
Proof.
  intros Hpc Hlock Hw Hq Hfree r r'.
  assert (Hdec : wrap size_type (freeThreads d - 1) = freeThreads d - 1).
  { apply wrap_in_range. pose proof (min_value_nonpos size_type).
    unfold in_range. lia. }
  assert (Hr : result r = goto Unlock_tasks m ∧
    length (threadTable (state r)) = length (threadTable d) ∧
    if hand_off w task
    then taskQueue (state r) = q ∧ freeThreads (state r) = freeThreads d - 1
    else taskQueue (state r) = task :: q ∧ freeThreads (state r) = freeThreads d).
  { unfold r, execute_step, hand_off. rewrite Hpc.
    unfold mbind, M_bind, get, mret, M_ret. cbv beta iota. rewrite Hw, Hq.
    cbn [Queue.front head]. rewrite configure_and_start_eq.
    destruct (Thread.configure w task) as [[] w1].
    - destruct (Thread.start w1) as [[] w2];
        cbn [result state fst snd with_threadTable with_taskQueue with_freeThreads
             threadTable taskQueue freeThreads Queue.pop];
        rewrite length_insert, ?Hq, ?Hdec; by split_and!.
    - cbn [result state fst snd with_threadTable threadTable taskQueue freeThreads].
      rewrite length_insert, Hq. by split_and!. }
  destruct Hr as (Hm & Hlen & Hhand).
  assert (Hr' : r' = (goto For (with_taskLocker false (with_it (S (it m)) m)),
                      state r, [Unlock queue_mutex])).
  { unfold r'. rewrite Hm. unfold execute_step. cbn [pc goto].
    unfold locker_unlock. cbn [taskLocker with_it goto]. by rewrite Hlock. }
  rewrite Hr', Hm. by split_and!.
Qed.

Lemma call_free {A : Type} (c : M A) (s : Pool) :
  (∀ mx, owned s mx = false) →
  call c s = Some ({| data := state (c (data s)); manager := manager s;
                      setter := setter s |},
                   log (c (data s))).
Proof.
  intros Hfree. unfold call.
  assert (Hnone : ∀ l, takes (owned s) l = false).
  { induction l as [|e l IH]; [done|].
    unfold takes in *. cbn [existsb]. rewrite IH.
    destruct e; by rewrite ?Hfree. }
  by rewrite Hnone.
Qed.

End Facts.

Example pool_2_4 :
  pool 2 4 =
    {| threadTable := [Worker.make; Worker.make]; taskQueue := []; thread := true;
       closed := false; maxThreads := 4; freeThreads := 2 |}.
Proof. reflexivity. Qed.

Example pool_2_2 :
  pool 2 2 =
    {| threadTable := [Worker.make; Worker.make]; taskQueue := []; thread := true;
       closed := false; maxThreads := 2; freeThreads := 2 |}.
Proof. reflexivity. Qed.

Example pool_5_0 :
  pool 5 0 =
    {| threadTable := []; taskQueue := []; thread := true;
       closed := false; maxThreads := 1; freeThreads := 0 |}.
Proof. reflexivity. Qed.

Example setThreads_3 :
  setThreads size_t 3 (pool 2 4) =
    (Returns true,
     {| threadTable := [Worker.make; Worker.make; Worker.make]; taskQueue := [];
        thread := true; closed := false; maxThreads := 4; freeThreads := 3 |},
     [Lock pool_mutex; PushBack; Unlock pool_mutex]).
Proof. reflexivity. Qed.

Example setThreads_2 :
  setThreads size_t 2 (pool 2 4) = (Returns false, pool 2 4, []).
Proof. reflexivity. Qed.

Example setThreads_5 :
  setThreads size_t 5 (pool 2 4) = (Returns false, pool 2 4, []).
Proof. reflexivity. Qed.

Example setThreads_wakes :
  log (setThreads size_t 2 (pool 0 4)) =
    [Lock pool_mutex; PushBack; PushBack; Unlock pool_mutex; NotifyOne].
Proof. reflexivity. Qed.

Lemma in_range_size_t z : 0 <= z < 2 ^ 64 → in_range size_t z.
Proof.
  unfold in_range, min_value, max_value, modulus, size_t.
  cbn [it_signed it_width bits]. lia.
Qed.

Lemma max_size_limits : Vector.max_size = 2 ^ 60 - 1.
Proof. reflexivity. Qed.


(** C1: on a pool of two workers and capacity four, [setThreads 1] is not
    rejected: the difference [1 - 2] wraps in [std::size_t] and the growth
    branch runs.  After the fourth statement of the call the table has three
    workers; the call, run to its end, returns true with [2 ^ 64 - 1] workers
    more. *)
Theorem setThreads_shrink_not_rejected :
  let d := pool 2 4 in
  result (getThreads size_t d) = 2 ∧
  to_size_t (1 - result (getThreads size_t d)) = 2 ^ 64 - 1 ∧
  result (getThreads size_t
            (state (setThreads_steps size_t 4 (setThreads_enter 1) d))) = 3 ∧
  result (setThreads size_t 1 d) = Returns true ∧
  Z.of_nat (length (threadTable (state (setThreads size_t 1 d)))) = 2 ^ 64 + 1.
Proof.
  intros d. split; [reflexivity|]. split; [reflexivity|]. split; [reflexivity|].
  apply setThreads_shrink; subst d; rewrite ?pool_2_4;
    cbn [threadTable maxThreads length].
  - rewrite max_size_limits. lia.
  - apply in_range_size_t. lia.
  - apply Z.lt_le_incl, (Z.lt_le_trans _ 3); [lia|]. apply max_value_at_least.
  - lia.
  - lia.
Qed.

(** C4: on a pool of two workers and capacity two, a thread that calls
    [setThreads 1] reaches the loop of line 114 with [2 ^ 64 - 1] iterations
    to run: after the first the pool has three workers and capacity two.  The
    call, run to its end, returns true. *)
Theorem setThreads_shrink_exceeds_maxThreads :
  ∃ s, run size_t [Call_setThreads 1; Setter_step; Setter_step; Setter_step;
                   Setter_step] (system 2 2) = Some s ∧
       setter s = Some {| setter_pc := Push_loop; setter_threads := 1;
                          setter_number := 2 ^ 64 - 1; setter_counter := 1 |} ∧
       result (getThreads size_t (data s)) = 3 ∧
       result (getMaxThreads (data s)) = 2 ∧
       result (setThreads size_t 1 (data (system 2 2))) = Returns true.
Proof.
  eexists. split; [vm_compute; reflexivity|]. do 3 (split; [reflexivity|]).
  change (data (system 2 2)) with (pool 2 2).
  apply setThreads_shrink; rewrite ?pool_2_2; cbn [threadTable maxThreads length].
  - rewrite max_size_limits. lia.
  - apply in_range_size_t. lia.
  - apply Z.lt_le_incl, (Z.lt_le_trans _ 3); [lia|]. apply max_value_at_least.
  - lia.
  - lia.
Qed.

(** While the caller of [setThreads] is in its loop the manager waits for the
    pool mutex. *)
Example manager_waits :
  ∃ s, run size_t [Call_setThreads 3; Setter_step; Setter_step; Setter_step;
                   Manager_step] (system 2 4) = Some s ∧
       perform size_t Manager_step s = None ∧
       ∃ s', run size_t (replicate 4 Setter_step ++ [Manager_step]) s = Some s' ∧
             setter s' = Some {| setter_pc := Notify; setter_threads := 3;
                                 setter_number := 1; setter_counter := 1 |} ∧
             manager s' = goto If_free (with_threadLocker true execute_start).
Proof.
  eexists. split; [vm_compute; reflexivity|]. split; [vm_compute; reflexivity|].
  eexists. split; [vm_compute; reflexivity|]. by split.
Qed.

(** While the manager waits for a task at line 260 it owns the pool mutex, and
    a caller of [setThreads] waits at line 111 (where the source says that the
    call deadlocks). *)
Example setThreads_waits :
  ∃ s, run size_t (replicate 8 Manager_step ++
                   [Call_setThreads 2; Setter_step; Setter_step]) (system 1 4)
         = Some s ∧
       pc (manager s) = Blocked_task ∧
       owns (manager s) pool_mutex = true ∧
       option_map setter_pc (setter s) = Some Lock_table ∧
       perform size_t Setter_step s = None.
Proof.
  eexists. split; [vm_compute; reflexivity|]. by split_and!.
Qed.

(** C2 fails as stated: on a pool of one idle worker the manager takes the
    pool mutex at line 234 and, still owning it, the queue mutex at line 253. *)
Lemma manager_owns_both :
  ∃ s, run size_t (replicate 6 Manager_step) (system 1 1) = Some s ∧
       pc (manager s) = While_empty ∧
       owns_both (manager s).
Proof. eexists. split; [vm_compute; reflexivity|]. by split. Qed.

(** C5 fails as stated: a batch of no task on an empty queue notifies the
    signal, and the queue does not go from empty to non-empty. *)
Lemma pushTask_list_nil_notifies :
  let d := pool 1 1 in
  let r := pushTask_list [] d in
  ¬ (notifications (log r) = 1%nat ↔ empty_to_nonempty d (state r)).
Proof.
  intros d r [Hwake _].
  assert (Hone : notifications (log r) = 1%nat) by reflexivity.
  destruct (Hwake Hone) as [_ Hnonempty]. by apply Hnonempty.
Qed.



(** *** The theorems at concrete pools *)



Lemma pushTask_notifies_witness :
  (let r := pushTask 1%nat 2%nat (pool 1 1) in
   notifications (log r) = 1%nat ∧ empty_to_nonempty (pool 1 1) (state r)) ∧
  (let d := state (pushTask 1%nat 2%nat (pool 1 1)) in
   let r := pushTask_pair (3%nat, 4%nat) d in
   notifications (log r) = 0%nat ∧ ¬ empty_to_nonempty d (state r)) ∧
  (let tasks := [(1%nat, 2%nat); (3%nat, 4%nat)] in
   let r := pushTask_list tasks (pool 1 1) in
   tasks ≠ [] ∧ notifications (log r) = 1%nat ∧
   Queue.size (taskQueue (state r)) = Z.of_nat (length tasks) ∧
   empty_to_nonempty (pool 1 1) (state r)).
Proof.
  destruct (pushTask_notifies (Thread:=worker) (functor:=nat))
    as (Hone & Hpair & Hlist).
  split_and!.
  - destruct (Hone 1%nat 2%nat (pool 1 1)) as [Hcount Hiff].
    split; [exact Hcount|]. apply Hiff. exact Hcount.
  - destruct (Hpair (3%nat, 4%nat) (state (pushTask 1%nat 2%nat (pool 1 1))))
      as [Hcount Hiff].
    split; [exact Hcount|]. intros Hstep. apply Hiff in Hstep.
    rewrite Hcount in Hstep. discriminate Hstep.
  - destruct (Hlist [(1%nat, 2%nat); (3%nat, 4%nat)] (pool 1 1))
      as (Hcount & Hsize & Hstep).
    assert (Hne : [(1%nat, 2%nat); (3%nat, 4%nat)] ≠ []) by discriminate.
    split_and!; [exact Hne|exact Hcount|by apply Hsize|].
    apply (Hstep Hne). exact Hcount.
Defined.

Lemma pushTask_list_nil_witness :
  (let d := pool 1 1 in
   let r := pushTask_list [] d in
   taskQueue d = [] ∧ state r = d ∧ notifications (log r) = 1%nat) ∧
  (let d := state (pushTask 1%nat 2%nat (pool 1 1)) in
   let r := pushTask_list [] d in
   taskQueue d ≠ [] ∧ state r = d ∧ notifications (log r) = 0%nat).
Proof.
  split.
  - destruct (pushTask_list_nil (pool 1 1)) as (Hstate & _ & Hempty & _).
    split_and!; [reflexivity|exact Hstate|]. by apply Hempty.
  - destruct (pushTask_list_nil (state (pushTask 1%nat 2%nat (pool 1 1))))
      as (Hstate & _ & _ & Hnonempty).
    assert (Hq : taskQueue (state (pushTask 1%nat 2%nat (pool 1 1))) ≠ [])
      by discriminate.
    split_and!; [exact Hq|exact Hstate|]. by apply Hnonempty.
Defined.

Lemma destroy_idempotent_witness :
  (let d := pool 2 4 in
   closed d = false ∧
   closed (state (destroy d)) = true ∧
   thread (state (destroy d)) = false ∧
   log (destroy d) = [Detach; NotifyOne] ∧
   state (destroy (state (destroy d))) = state (destroy d) ∧
   log (destroy (state (destroy d))) = []) ∧
  (let d := state (destroy (pool 2 4)) in
   closed d = true ∧ state (destroy d) = d ∧ log (destroy d) = []).
Proof.
  split.
  - destruct (destroy_idempotent (pool 2 4))
      as (Hclosed & Hstate & Hlog & _ & Hopen & _).
    assert (Hc : closed (pool 2 4) = false) by reflexivity.
    destruct (Hopen Hc) as (_ & Hthread & Hlog1 & _).
    by split_and!.
  - destruct (destroy_idempotent (state (destroy (pool 2 4))))
      as (_ & _ & _ & _ & _ & Hsame).
    assert (Hc : closed (state (destroy (pool 2 4))) = true) by reflexivity.
    destruct (Hsame Hc) as [Hstate Hlog].
    by split_and!.
Defined.

Lemma closed_is_terminal_witness :
  closed (data closed_system) = true ∧
  ∃ s', run size_t after_shutdown closed_system = Some s' ∧
        closed (data s') = true.
Proof.
  split; [reflexivity|].
  destruct (run size_t after_shutdown closed_system) as [s'|] eqn:Hrun.
  - exists s'. split; [reflexivity|].
    exact (closed_is_terminal size_t after_shutdown closed_system s' eq_refl Hrun).
  - vm_compute in Hrun. discriminate Hrun.
Defined.

Lemma mutexes_nested_witness :
  ∃ s, run size_t (replicate 6 Manager_step) (system 1 1) = Some s ∧
       (owns (manager s) queue_mutex = true → owns (manager s) pool_mutex = true) ∧
       perform size_t (Call_pushTask 1%nat 2%nat) s = None ∧
       ∀ s' l, perform size_t Call_destroy s = Some (s', l) →
               (max_held [] l ≤ 1)%nat.
Proof.
  destruct (run size_t (replicate 6 Manager_step) (system 1 1)) as [s|] eqn:Hrun.
  - exists s. destruct (mutexes_nested size_t 1 1 _ s Hrun) as [Horder Hcalls].
    split_and!; [reflexivity|exact Horder| |].
    + vm_compute in Hrun. injection Hrun as <-. reflexivity.
    + intros s' l. apply (Hcalls Call_destroy). discriminate.
  - vm_compute in Hrun. discriminate Hrun.
Defined.

Lemma dispatch_attempt_witness :
  let d := state (pushTask 1%nat 2%nat (pool 1 1)) in
  let r := execute_step size_t at_configure d in
  let r' := execute_step size_t (result r) (state r) in
  (threadTable d !! it at_configure = Some Worker.make ∧
   taskQueue d = [(1%nat, 2%nat)] ∧
   0 < freeThreads d <= max_value size_t) ∧
  hand_off (Worker.make (TaskPair:=nat * nat)) (1%nat, 2%nat) = true ∧
  taskQueue (state r) = [] ∧
  freeThreads (state r) = freeThreads d - 1 ∧
  pc (result r) = Unlock_tasks ∧
  state r' = state r ∧
  log r' = [Unlock queue_mutex] ∧
  pc (result r') = For ∧
  it (result r') = 1%nat.
Proof.
  intros d r r'.
  assert (Hw : threadTable d !! it at_configure = Some Worker.make) by reflexivity.
  assert (Hq : taskQueue d = [(1%nat, 2%nat)]) by reflexivity.
  assert (Hfree : 0 < freeThreads d <= max_value size_t).
  { assert (freeThreads d = 1) as -> by reflexivity.
    pose proof (max_value_at_least size_t). lia. }
  destruct (dispatch_attempt size_t at_configure d Worker.make (1%nat, 2%nat) []
              eq_refl eq_refl Hw Hq Hfree)
    as (Hhand & _ & Hpc & Hstate & Hlog & Hpc' & Hit).
  assert (Hok : hand_off (Worker.make (TaskPair:=nat * nat)) (1%nat, 2%nat) = true)
    by reflexivity.
  rewrite Hok in Hhand. destruct Hhand as [Hqueue Hcount].
  by split_and!.
Defined.

(** A worker that took another task since the manager saw it idle rejects the
    assignment: the queue and the idle count stay, the scan goes on. *)
Example dispatch_rejected :
  let busy := {| Worker.assigned := Some (7%nat, 8%nat); Worker.running := true;
                 Worker.destroyed := false |} in
  let d := with_threadTable [busy] (state (pushTask 1%nat 2%nat (pool 1 1))) in
  let r := execute_step size_t at_configure d in
  hand_off busy (1%nat, 2%nat) = false ∧
  state r = d ∧
  result r = goto Unlock_tasks at_configure.
Proof. by split_and!. Qed.

(** ** More of the pool: what the operations keep and how they compose *)

Section Lifecycle_facts.

Context {Thread functor : Type}.
Abbreviation TaskPair := (functor * functor)%type.
Context `{!Thread.Ops Thread TaskPair}.
Context `{!Vector.Limits}.
Variable size_type : int_type.

Abbreviation Data := (@ThreadPoolStructure Thread functor).
Abbreviation Pool := (@System Thread functor).
Abbreviation Action := (@action Thread functor).

(** *** The callback of the workers *)

(** X1: the callback of a worker that reports itself idle adds one to the idle
    count and notifies the signal once iff the count was zero; the callback of
    a worker that does not report itself idle changes nothing. *)
Theorem callback_counts free id (d : Data) :
  min_value size_type <= freeThreads d < max_value size_type →
  let r := callback size_type free id d in
  (free = false → r = (tt, d, [])) ∧
  (free = true →
     state r = with_freeThreads (freeThreads d + 1) d ∧
     log r = if freeThreads d =? 0 then [NotifyOne] else []).
Proof.
  intros Hfree r. split; intros ->; [done|].
  unfold r, callback, mbind, M_bind, modify, get, notify_one, emit, mret, M_ret.
  cbn [freeThreads with_freeThreads].
  rewrite wrap_in_range by (unfold in_range; lia).
  assert (Hone : (freeThreads d + 1 =? 1) = (freeThreads d =? 0)).
  { destruct (Z.eqb_spec (freeThreads d + 1) 1), (Z.eqb_spec (freeThreads d) 0); lia. }
  rewrite Hone. by destruct (freeThreads d =? 0).
Qed.

(** *** [setThreads] *)

(** X2: a call of [setThreads] that returns false has changed nothing and
    logged nothing; a call that returns true has appended at least one worker
    behind the workers that were there and has kept the queue, the capacity
    and the closed flag.  A request for the number of workers that the pool
    has returns false. *)
Theorem setThreads_false_is_clean threads (d : Data) :
  let r := setThreads size_type threads d in
  (result r = Returns false → state r = d ∧ log r = []) ∧
  (result r = Returns true →
     ∃ k, (0 < k)%nat ∧
          threadTable (state r) = threadTable d ++ replicate k Thread.make ∧
          taskQueue (state r) = taskQueue d ∧
          maxThreads (state r) = maxThreads d ∧
          closed (state r) = closed d) ∧
  (threads = Z.of_nat (length (threadTable d)) → result r = Returns false).
Proof.
  intros r. unfold r. rewrite setThreads_eq. cbv zeta.
  set (number := to_size_t (threads - Z.of_nat (length (threadTable d)))).
  split_and!.
  - destruct (threads >? maxThreads d); [done|].
    destruct (number >? 0); [|done].
    by destruct (result (reserve threads d)) as [[]|e].
  - destruct (threads >? maxThreads d); [done|].
    destruct (Z.gtb_spec number 0) as [Hpos|_]; [|done].
    destruct (result (reserve threads d)) as [[]|e]; [|done].
    intros _. exists (Z.to_nat number). split; [lia|]. by split_and!.
  - intros Hsame. destruct (threads >? maxThreads d); [done|].
    assert (Hzero : number = 0).
    { unfold number. rewrite Hsame, Z.sub_diag. by apply to_size_t_small. }
    by rewrite Hzero.
Qed.

(** X3: [setThreads], the two [pushTask] and the callback do not look at the
    closed flag: on a closed pool each of them returns, changes and logs what
    it does on the same pool open. *)
Theorem closed_is_not_checked b (d : Data) :
  (∀ threads,
     let r := setThreads size_type threads d in
     setThreads size_type threads (with_closed b d)
       = (result r, with_closed b (state r), log r)) ∧
  (∀ task,
     let r := pushTask_pair task d in
     pushTask_pair task (with_closed b d) = (tt, with_closed b (state r), log r)) ∧
  (∀ tasks,
     let r := pushTask_list tasks d in
     pushTask_list tasks (with_closed b d) = (tt, with_closed b (state r), log r)) ∧
  (∀ free id,
     let r := callback size_type free id d in
     callback size_type free id (with_closed b d)
       = (tt, with_closed b (state r), log r)).
Proof.
  split_and!.
  - intros threads r. unfold r. rewrite !setThreads_eq, !reserve_eq. cbv zeta.
    cbn [with_closed maxThreads threadTable freeThreads result fst].
    destruct (threads >? maxThreads d); [done|].
    destruct (to_size_t _ >? 0); [|done].
    destruct (if to_size_t threads >? Vector.max_size then _ else _) as [[]|e];
      [|done].
    by destruct (to_size_t _ =? _).
  - intros task r. unfold r. rewrite !pushTask_pair_eq.
    cbn [with_closed taskQueue]. by destruct (Queue.empty (taskQueue d)).
  - intros tasks r. unfold r. rewrite !pushTask_list_eq.
    cbn [with_closed taskQueue]. by destruct (Queue.empty (taskQueue d)).
  - intros free id r. unfold r, callback, mbind, M_bind, modify, get, notify_one,
      emit, mret, M_ret.
    destruct free; [|done]. cbn [with_closed freeThreads with_freeThreads].
    by destruct (_ =? 1).
Qed.

(** *** Submission *)

Lemma pushTask_each_state tasks (d : Data) :
  state (pushTask_each tasks d) = with_taskQueue (taskQueue d ++ tasks) d.
Proof.
  revert d. induction tasks as [|task tasks IH]; intros d; cbn [pushTask_each].
  - cbn. rewrite app_nil_r. by destruct d.
  - rewrite (bind_eq _ _ _ _ _ _ (pushTask_pair_eq task d)).
    cbn [state fst snd]. rewrite IH. cbn [with_taskQueue taskQueue].
    by rewrite <- app_assoc.
Qed.

Lemma pushTask_each_notifications tasks (d : Data) :
  notifications (log (pushTask_each tasks d)) =
    match tasks with
    | [] => 0%nat
    | _ => if Queue.empty (taskQueue d) then 1%nat else 0%nat
    end.
Proof.
  revert d. induction tasks as [|task tasks IH]; intros d; cbn [pushTask_each].
  - done.
  - rewrite (bind_eq _ _ _ _ _ _ (pushTask_pair_eq task d)).
    cbn [log snd]. rewrite notifications_app, notifications_wake, IH.
    cbn [with_taskQueue taskQueue].
    assert (Hfull : Queue.empty (taskQueue d ++ [task]) = false)
      by by destruct (taskQueue d).
    rewrite Hfull. destruct tasks, (Queue.empty (taskQueue d)); lia.
Qed.

(** X4: a batch submission leaves the pool data that the submission of the
    same tasks one at a time leaves, with the tasks behind those that waited,
    in their order; the two notify the signal the same number of times unless
    the batch is empty and the queue is empty, where the batch notifies once
    and the single submissions, being none, not at all.  The number of
    waiting tasks goes up by the size of the batch. *)
Theorem pushTask_list_as_each tasks (d : Data) :
  let r := pushTask_list tasks d in
  let r' := pushTask_each tasks d in
  state r = state r' ∧
  taskQueue (state r) = taskQueue d ++ tasks ∧
  notifications (log r) =
    match tasks, taskQueue d with
    | [], [] => 1%nat
    | _, _ => notifications (log r')
    end ∧
  (Queue.size (taskQueue d) + Z.of_nat (length tasks) <= max_value size_type →
     result (getTasks size_type (state r))
       = result (getTasks size_type d) + Z.of_nat (length tasks)).
Proof.
  intros r r'. unfold r, r'.
  rewrite pushTask_each_state, pushTask_each_notifications, pushTask_list_eq.
  cbn [state log fst snd with_taskQueue taskQueue]. rewrite notifications_wake.
  split_and!; try done.
  - by destruct tasks, (taskQueue d).
  - intros Hfit. unfold getTasks, get, Queue.size in *.
    cbn [result fst taskQueue with_taskQueue]. rewrite length_app.
    pose proof (min_value_nonpos size_type).
    rewrite !wrap_in_range by (unfold in_range; lia). lia.
Qed.

(** *** The manager *)

(** The step of the manager at each program point but [Configure]. *)
Ltac execute_step_cases :=
  unfold execute_step, locker_lock, locker_unlock, mbind, M_bind, getClosed, get,
    emit, mret, M_ret;
  cbn [pc threadLocker taskLocker it];
  rewrite ?destroy_workers_eq;
  repeat match goal with
    | |- context [if ?b then _ else _] => destruct b eqn:?
    | |- context [match ?o with Some _ => _ | None => _ end] => destruct o eqn:?
    end;
  rewrite ?destroy_workers_eq;
  cbn [result state log fst snd with_threadTable threadTable taskQueue
       freeThreads closed maxThreads thread].

Lemma execute_step_configure m (d : Data) :
  pc m = Configure →
  execute_step size_type m d =
    match threadTable d !! it m, Queue.front (taskQueue d) with
    | Some w, Some task =>
        let r := configure_and_start size_type (it m) w task d in
        (goto Unlock_tasks m, state r, log r)
    | _, _ => (goto Error m, d, [])
    end.
Proof.
  intros Hpc. unfold execute_step. rewrite Hpc.
  unfold mbind, M_bind, get, mret, M_ret.
  destruct (threadTable d !! it m) as [w|]; [|done].
  destruct (Queue.front (taskQueue d)) as [task|]; [|done].
  destruct (configure_and_start size_type (it m) w task d) as [[b d1] log1].
  cbn. by rewrite app_nil_r.
Qed.

(** What a statement of the manager changes. *)
Lemma execute_step_frame m (d : Data) :
  let r := execute_step size_type m d in
  closed (state r) = closed d ∧
  maxThreads (state r) = maxThreads d ∧
  thread (state r) = thread d ∧
  length (threadTable (state r)) = length (threadTable d) ∧
  ((taskQueue (state r) = taskQueue d ∧ freeThreads (state r) = freeThreads d) ∨
   (pc m = Configure ∧
    ∃ w task,
      threadTable d !! it m = Some w ∧
      taskQueue d = task :: taskQueue (state r) ∧
      hand_off w task = true ∧
      freeThreads (state r) = wrap size_type (freeThreads d - 1))).
Proof.
  intros r. unfold r. destruct (pc m) eqn:Hpc.
  14: { rewrite execute_step_configure by done.
        destruct (threadTable d !! it m) as [w|] eqn:Hw; [|by split_and!; try left].
        destruct (taskQueue d) as [|task q] eqn:Hq; cbn [Queue.front head];
          [by split_and!; try left|].
        rewrite configure_and_start_eq.
        destruct (Thread.configure w task) as [[] w1] eqn:Hconfigure; cbv zeta.
        - destruct (Thread.start w1) as [[] w2] eqn:Hstart;
            cbn [state fst snd with_threadTable with_taskQueue with_freeThreads
                 threadTable taskQueue freeThreads closed maxThreads thread];
            rewrite length_insert, Hq; cbn [Queue.pop tail].
          + split_and!; try done. right. split; [done|]. exists w, task.
            split_and!; try done. unfold hand_off. by rewrite Hconfigure, Hstart.
          + split_and!; try done. by left.
        - cbn [state fst snd with_threadTable threadTable taskQueue freeThreads
               closed maxThreads thread].
          rewrite length_insert, Hq. split_and!; try done. by left. }
  all: destruct m as [l tl ql i]; cbn [pc] in Hpc; subst l; execute_step_cases;
    rewrite ?length_map; split_and!; try done; by left.
Qed.

(** What a statement of [setThreads] changes. *)
Lemma setThreads_step_frame c (d : Data) :
  let r := setThreads_step size_type c d in
  closed (state r) = closed d ∧
  maxThreads (state r) = maxThreads d ∧
  thread (state r) = thread d ∧
  taskQueue (state r) = taskQueue d ∧
  (length (threadTable d) ≤ length (threadTable (state r)))%nat ∧
  destroys (log r) = 0%nat.
Proof.
  intros r. unfold r. destruct (setter_pc c) eqn:Hpc.
  - by rewrite setThreads_step_check.
  - rewrite setThreads_step_difference by done. cbv zeta. by split_and!.
  - rewrite setThreads_step_lock by done.
    by destruct (result (reserve (setter_threads c) d)) as [[]|e].
  - unfold setThreads_step. rewrite Hpc.
    destruct (setter_counter c <? setter_number c); [|done].
    unfold push_back, mbind, M_bind, modify, emit, mret, M_ret.
    cbn [state log fst snd with_threadTable threadTable taskQueue closed
         maxThreads thread].
    rewrite length_app. cbn [length]. split_and!; try done. lia.
  - by rewrite setThreads_step_unlock.
  - by rewrite setThreads_step_add.
  - rewrite setThreads_step_notify by done. by destruct (to_size_t _ =? _).
  - unfold setThreads_step. by rewrite Hpc.
  - unfold setThreads_step. by rewrite Hpc.
Qed.

(** What an action of a thread other than the manager changes: only
    [setMaxThreads] changes the capacity, a submission appends to the queue,
    a worker takes the front of the queue, and it can do so only while the
    manager does not own the queue mutex. *)
Lemma perform_others a (s s' : Pool) l :
  is_manager_step a = false →
  perform size_type a s = Some (s', l) →
  manager s' = manager s ∧
  maxThreads (data s') = capacity_after (maxThreads (data s)) a ∧
  taskQueue (data s) ++ submitted a = fetched a s ++ taskQueue (data s') ∧
  (fetched a s ≠ [] → owns (manager s) queue_mutex = false) ∧
  (length (threadTable (data s)) ≤ length (threadTable (data s')))%nat ∧
  (closed (data s) = true → closed (data s') = true) ∧
  destroys l = 0%nat.
Proof.
  assert (Hsame : ∀ (d : Data) (m : Manager) (q : bool) l1 m1,
    destroys l1 = 0%nat → m1 = m →
    m1 = m ∧
    maxThreads d = maxThreads d ∧
    taskQueue d ++ [] = [] ++ taskQueue d ∧
    ([] ≠ @nil TaskPair → q = false) ∧
    (length (threadTable d) ≤ length (threadTable d))%nat ∧
    (closed d = true → closed d = true) ∧
    destroys l1 = 0%nat).
  { intros d m q l1 m1 -> ->. rewrite app_nil_r. by split_and!. }
  destruct a; cbn [is_manager_step perform submitted fetched capacity_after];
    [done|..]; intros _.
  - destruct (setter s); [done|]. intros [= <- <-]. by apply Hsame.
  - destruct (setter s) as [c|]; [|done].
    assert (Hstep : ∀ s1 l1,
      (let r := setThreads_step size_type c (data s) in
       if takes (owned_by_manager s) (log r) then None
       else Some ({| data := state r; manager := manager s;
                     setter := Some (result r) |}, log r)) = Some (s1, l1) →
      manager s1 = manager s ∧
      maxThreads (data s1) = maxThreads (data s) ∧
      taskQueue (data s) ++ [] = [] ++ taskQueue (data s1) ∧
      ([] ≠ @nil TaskPair → owns (manager s) queue_mutex = false) ∧
      (length (threadTable (data s)) ≤ length (threadTable (data s1)))%nat ∧
      (closed (data s) = true → closed (data s1) = true) ∧
      destroys l1 = 0%nat).
    { intros s1 l1. cbv zeta. destruct (takes _ _); [done|]. intros [= <- <-].
      cbn [data manager].
      destruct (setThreads_step_frame c (data s))
        as (Hclosed & Hmax & Hthread & Hqueue & Hlen & Hlog).
      rewrite Hclosed, Hmax, Hqueue, Hlog, app_nil_r.
      by split_and!. }
    destruct (setter_pc c); try apply Hstep;
      intros [= <- <-]; by apply Hsame.
  - intros (-> & -> & _ & ->)%call_data.
    rewrite pushTask_eq, pushTask_pair_eq.
    cbn [state log fst snd with_taskQueue taskQueue threadTable closed maxThreads app].
    split_and!; try done. by destruct (Queue.empty _).
  - intros (-> & -> & _ & ->)%call_data. rewrite pushTask_pair_eq.
    cbn [state log fst snd with_taskQueue taskQueue threadTable closed maxThreads app].
    split_and!; try done. by destruct (Queue.empty _).
  - intros (-> & -> & _ & ->)%call_data. rewrite pushTask_list_eq.
    cbn [state log fst snd with_taskQueue taskQueue threadTable closed maxThreads app].
    split_and!; try done. by destruct (Queue.empty _).
  - intros (-> & -> & _ & ->)%call_data. rewrite destroy_eq, app_nil_r.
    destruct (closed (data s)) eqn:Hclosed;
      cbn [state log fst snd with_thread with_closed taskQueue threadTable closed
           maxThreads app]; by split_and!.
  - intros (-> & -> & _ & ->)%call_data. rewrite app_nil_r. by split_and!.
  - intros (-> & -> & _ & ->)%call_data.
    unfold callback, mbind, M_bind, modify, get, notify_one, emit, mret, M_ret.
    destruct free; [|by apply Hsame].
    cbn [freeThreads with_freeThreads].
    destruct (_ =? 1);
      cbn [state log fst snd with_freeThreads freeThreads taskQueue threadTable
           closed maxThreads app];
      rewrite app_nil_r; by split_and!.
  - intros (-> & -> & _ & ->)%call_data. rewrite app_nil_r.
    cbn [state log fst snd modify with_threadTable freeThreads taskQueue threadTable
         closed maxThreads app].
    rewrite length_insert. by split_and!.
  - unfold call. rewrite taskQueue_pop_eq.
    destruct (takes _ _) eqn:Htakes; [done|]. intros [= <- <-].
    cbn [data manager]. rewrite app_nil_r.
    assert (Hfree : owns (manager s) queue_mutex = false).
    { unfold takes, owned in Htakes. cbn [log snd existsb] in Htakes.
      by destruct (owns (manager s) queue_mutex). }
    cbn [state log fst snd with_taskQueue taskQueue threadTable closed maxThreads].
    split_and!; try done.
    by destruct (taskQueue (data s)).
Qed.

Lemma perform_manager_step (s s' : Pool) l :
  perform size_type Manager_step s = Some (s', l) →
  let r := execute_step size_type (manager s) (data s) in
  data s' = state r ∧ manager s' = result r ∧ setter s' = setter s ∧ l = log r.
Proof.
  cbn [perform]. cbv zeta. destruct (takes _ _); [done|].
  intros [= <- <-]. by split_and!.
Qed.

(** X5: a statement of the manager never changes the closed flag, the
    capacity, the manager thread object, the number of workers or the thread
    that is inside [setThreads].  It leaves the queue and the idle count as
    they are, except at line 269 when the worker at [it] takes the front
    task: then exactly that task leaves the queue and the idle count goes
    down by one. *)
Theorem manager_step_effect (s s' : Pool) l :
  perform size_type Manager_step s = Some (s', l) →
  setter s' = setter s ∧
  closed (data s') = closed (data s) ∧
  maxThreads (data s') = maxThreads (data s) ∧
  thread (data s') = thread (data s) ∧
  length (threadTable (data s')) = length (threadTable (data s)) ∧
  ((taskQueue (data s') = taskQueue (data s) ∧
    freeThreads (data s') = freeThreads (data s)) ∨
   (pc (manager s) = Configure ∧
    ∃ w task,
      threadTable (data s) !! it (manager s) = Some w ∧
      taskQueue (data s) = task :: taskQueue (data s') ∧
      hand_off w task = true ∧
      freeThreads (data s') = wrap size_type (freeThreads (data s) - 1))).
Proof.
  intros (-> & _ & -> & _)%perform_manager_step.
  split; [done|]. apply execute_step_frame.
Qed.

(** *** The system *)

(** X6: no run of the system removes a worker: the table has at least as many
    workers after it as before. *)
Theorem workers_never_removed acts (s s' : Pool) :
  run size_type acts s = Some s' →
  (length (threadTable (data s)) ≤ length (threadTable (data s')))%nat.
Proof.
  revert s. induction acts as [|a acts IH]; intros s; cbn [run].
  - by intros [= <-].
  - destruct (perform size_type a s) as [[s1 l]|] eqn:Ha; [|done].
    intros Hrun. specialize (IH _ Hrun).
    destruct (is_manager_step a) eqn:Hkind.
    + destruct a; try done. apply perform_manager_step in Ha as (Hdata & _).
      destruct (execute_step_frame (manager s) (data s)) as (_ & _ & _ & Hlen & _).
      rewrite <- Hdata in Hlen. lia.
    + destruct (perform_others _ _ _ _ Hkind Ha) as (_ & _ & _ & _ & Hlen & _). lia.
Qed.

Abbreviation capacity_of := (@maxThreads Thread functor).

Lemma run_capacity (acts : list Action) (s s' : Pool) :
  run size_type acts s = Some s' →
  capacity_of (data s') = fold_left capacity_after acts (capacity_of (data s)).
Proof.
  revert s. induction acts as [|a acts IH]; intros s; cbn [run fold_left].
  - by intros [= <-].
  - destruct (perform size_type a s) as [[s1 l]|] eqn:Ha; [|done].
    intros Hrun. rewrite (IH _ Hrun). f_equal.
    destruct (is_manager_step a) eqn:Hkind.
    + destruct a; try done. apply perform_manager_step in Ha as (-> & _).
      apply execute_step_frame.
    + by destruct (perform_others _ _ _ _ Hkind Ha) as (_ & -> & _).
Qed.

Lemma capacity_after_positive (acts : list Action) capacity :
  1 <= capacity → 1 <= fold_left capacity_after acts capacity.
Proof.
  revert capacity. induction acts as [|a acts IH]; intros capacity Hpos;
    cbn [fold_left]; [done|].
  apply IH. destruct a as [| | | | | | |stored| | |]; cbn [capacity_after]; try done.
  destruct (Z.gtb_spec stored 0); lia.
Qed.

Lemma new_pool_capacity threads capacity :
  capacity_of (data (new_pool (Thread:=Thread) (functor:=functor)
                       size_type threads capacity))
    = if capacity >? 0 then capacity else 1.
Proof.
  unfold new_pool. cbn [data]. rewrite ThreadPool_eq. cbv zeta.
  by destruct (result (reserve _ _)) as [[]|e].
Qed.

(** X7: the capacity is what was stored last.  In every state that the
    system reaches from a new pool, [getMaxThreads] returns what the last call
    of [setMaxThreads] stored, or what the constructor stored when there was
    no call since: the argument, or one when that is not positive.  No other
    operation changes the capacity, and it is at least one. *)
Theorem capacity_is_last_stored threads maxThreads (acts : list Action) (s : Pool) :
  run size_type acts (new_pool size_type threads maxThreads) = Some s →
  result (getMaxThreads (data s))
    = fold_left capacity_after acts (if maxThreads >? 0 then maxThreads else 1) ∧
  1 <= result (getMaxThreads (data s)).
Proof.
  intros Hrun. unfold getMaxThreads, get. cbn [result fst].
  rewrite (run_capacity _ _ _ Hrun), new_pool_capacity.
  split; [done|]. apply capacity_after_positive.
  destruct (Z.gtb_spec maxThreads 0); lia.
Qed.

(** *** The queue *)

(** The tasks that the manager hands over in a statement are the tasks that
    leave the queue in it. *)
Lemma manager_step_queue (s s' : Pool) l :
  perform size_type Manager_step s = Some (s', l) →
  taskQueue (data s) = dispatched Manager_step s ++ taskQueue (data s').
Proof.
  intros (-> & _)%perform_manager_step. unfold dispatched.
  destruct (pc (manager s)) eqn:Hpc.
  14: { rewrite execute_step_configure by done.
        destruct (threadTable (data s) !! it (manager s)) as [w|]; [|done].
        destruct (taskQueue (data s)) as [|task q] eqn:Hq; cbn [Queue.front head];
          [done|].
        rewrite configure_and_start_eq. unfold hand_off.
        destruct (Thread.configure w task) as [[] w1];
          [|cbn [state fst snd with_threadTable taskQueue app]; by rewrite Hq].
        destruct (Thread.start w1) as [[] w2];
          cbn [state fst snd with_threadTable with_taskQueue with_freeThreads
               taskQueue app];
          by rewrite Hq. }
  all: destruct (execute_step_frame (manager s) (data s))
         as (_ & _ & _ & _ & [[-> _]|[Hc _]]); [done|congruence].
Qed.

Lemma dispatched_others a (s : Pool) :
  is_manager_step a = false → dispatched a s = [].
Proof. by destruct a. Qed.

(** The manager hands over at most one task in a statement, and only at
    line 269. *)
Lemma dispatched_once a (s : Pool) :
  (length (dispatched a s) ≤ 1)%nat ∧
  (dispatched a s ≠ [] → a = Manager_step ∧ pc (manager s) = Configure).
Proof.
  destruct a; cbn [dispatched length]; try (split; [lia|done]).
  destruct (pc (manager s)); try (split; [cbn; lia|done]).
  destruct (threadTable (data s) !! it (manager s)) as [w|];
    [|split; [cbn; lia|done]].
  destruct (Queue.front (taskQueue (data s))) as [task|];
    [|split; [cbn; lia|done]].
  destruct (hand_off w task); split; cbn [length]; try lia; done.
Qed.

(** X8: the queue is first in, first out, and loses no task.  Over any run of
    the system, the tasks that waited at its start followed by the tasks
    submitted during it, in the order of submission, are the tasks that left
    the queue during it, in the order in which they left, followed by the
    tasks that wait at its end.  A task leaves the queue when the manager
    hands it to a worker that accepts it and starts, or when a worker takes it
    by itself. *)
Theorem tasks_leave_in_order acts (s s' : Pool) :
  run size_type acts s = Some s' →
  taskQueue (data s) ++ flat_map submitted acts
    = leaves size_type acts s ++ taskQueue (data s').
Proof.
  revert s. induction acts as [|a acts IH]; intros s; cbn [run flat_map leaves].
  - intros [= <-]. by rewrite app_nil_r.
  - destruct (perform size_type a s) as [[s1 l]|] eqn:Ha; [|done].
    intros Hrun. specialize (IH _ Hrun).
    destruct (is_manager_step a) eqn:Hkind.
    + destruct a; try done. cbn [submitted fetched app].
      rewrite (manager_step_queue _ _ _ Ha), <- !app_assoc. by rewrite IH.
    + destruct (perform_others _ _ _ _ Hkind Ha) as (_ & _ & Hqueue & _).
      rewrite (dispatched_others _ _ Hkind). cbn [app].
      by rewrite app_assoc, Hqueue, <- !app_assoc, IH.
Qed.

(** *** The manager is safe *)

Lemma execute_step_safe m (d : Data) :
  manager_safe m d →
  manager_safe (result (execute_step size_type m d))
    (state (execute_step size_type m d)).
Proof.
  intros (Hlock & Herror & Hscan & Hfront). split.
  { by apply execute_step_lock_discipline. }
  destruct (pc m) eqn:Hpc; try done.
  14: { rewrite execute_step_configure by done.
        destruct (lookup_lt_is_Some_2 (threadTable d) (it m) (Hscan eq_refl))
          as [w ->].
        destruct (taskQueue d) as [|task q] eqn:Hq; [by destruct Hfront|].
        cbn [Queue.front head result state fst snd goto pc in_scan].
        by split_and!. }
  8: { unfold execute_step. rewrite Hpc. unfold mbind, M_bind, get, mret, M_ret.
       destruct (lookup_lt_is_Some_2 (threadTable d) (it m) (Hscan eq_refl))
         as [w ->].
       cbn [result state fst snd]. specialize (Hscan eq_refl).
       destruct (Thread.free w); cbn [goto with_it pc in_scan it];
         by split_and!. }
  all: unfold lock_discipline in Hlock; rewrite Hpc in Hlock;
    destruct m as [l tl ql i]; cbn [pc threadLocker taskLocker it] in *; subst l;
    lazymatch type of Hlock with
    | _ ∧ _ => destruct Hlock as [-> ->]
    | _ = _ => subst ql
    | _ => idtac
    end;
    execute_step_cases;
    cbn [goto with_it with_threadLocker with_taskLocker pc in_scan it];
    rewrite ?length_map;
    split_and!; try done; try (intros _; by apply Hscan).
  - intros _.
    repeat match goal with
      | Hguard : _ && _ = true |- _ => apply andb_prop in Hguard as [? ?]
      end.
    by eapply bool_decide_eq_true_1.
  - intros _ Hempty.
    match goal with Hfull : Queue.empty _ = false |- _ => by rewrite Hempty in Hfull end.
Qed.

Lemma perform_safe a (s s' : Pool) l :
  perform size_type a s = Some (s', l) →
  manager_safe (manager s) (data s) → manager_safe (manager s') (data s').
Proof.
  intros Ha Hsafe. destruct (is_manager_step a) eqn:Hkind.
  - destruct a; try done. apply perform_manager_step in Ha as (-> & -> & _).
    by apply execute_step_safe.
  - destruct (perform_others _ _ _ _ Hkind Ha)
      as (-> & _ & Hqueue & Hfetch & Hlen & _).
    destruct Hsafe as (Hlock & Herror & Hscan & Hfront).
    split_and!; try done.
    + intros Hin. specialize (Hscan Hin). lia.
    + intros Hpc. specialize (Hfront Hpc).
      assert (Hnone : fetched a s = []).
      { destruct (fetched a s) as [|task tasks]; [done|].
        unfold lock_discipline in Hlock. rewrite Hpc in Hlock.
        destruct Hlock as [_ Howned].
        assert (Hfree : owns (manager s) queue_mutex = false) by by apply Hfetch.
        cbn [owns] in Hfree. congruence. }
      rewrite Hnone in Hqueue. cbn [app] in Hqueue. rewrite <- Hqueue.
      by destruct (taskQueue (data s)).
Qed.

Lemma run_safe acts (s s' : Pool) :
  run size_type acts s = Some s' →
  manager_safe (manager s) (data s) → manager_safe (manager s') (data s').
Proof.
  revert s. induction acts as [|a acts IH]; intros s; cbn [run].
  - by intros [= <-].
  - destruct (perform size_type a s) as [[s1 l]|] eqn:Ha; [|done].
    intros Hrun Hsafe. apply (IH _ Hrun). by eapply perform_safe.
Qed.

Lemma new_pool_safe threads maxThreads :
  manager_safe (manager (new_pool (Thread:=Thread) (functor:=functor)
                           size_type threads maxThreads))
    (data (new_pool size_type threads maxThreads)).
Proof. by split_and!. Qed.

(** X10: the manager never throws and never reads what is not there.  In
    every state that the system reaches from a new pool its lockers are as its
    program point requires (no [lock] of a locker that owns its mutex, no
    [unlock] of one that does not), its iterator points to a worker of the
    table throughout the scan, and the queue is not empty when the manager
    calls [front] at line 269. *)
Theorem manager_is_safe threads maxThreads acts (s : Pool) :
  run size_type acts (new_pool size_type threads maxThreads) = Some s →
  manager_safe (manager s) (data s) ∧
  (pc (manager s) = If_thread_free ∨ pc (manager s) = Configure →
   is_Some (threadTable (data s) !! it (manager s))) ∧
  (pc (manager s) = Configure → is_Some (Queue.front (taskQueue (data s)))).
Proof.
  intros Hrun.
  pose proof (run_safe _ _ _ Hrun (new_pool_safe threads maxThreads)) as Hsafe.
  split; [done|]. destruct Hsafe as (_ & _ & Hscan & Hfront). split.
  - intros Hpc. apply lookup_lt_is_Some_2, Hscan. by destruct Hpc as [-> | ->].
  - intros Hpc. specialize (Hfront Hpc). by destruct (taskQueue (data s)).
Qed.

(** *** The end of the manager *)

Lemma execute_step_distance m (d : Data) :
  closed d = true →
  manager_safe m d →
  (distance (pc (result (execute_step size_type m d))) ≤ distance (pc m) - 1)%nat.
Proof.
  intros Hclosed (Hlock & Herror & Hscan & Hfront).
  destruct (pc m) eqn:Hpc; try done.
  14: { rewrite execute_step_configure by done.
        destruct (lookup_lt_is_Some_2 (threadTable d) (it m) (Hscan eq_refl))
          as [w ->].
        destruct (taskQueue d) as [|task q] eqn:Hq; [by destruct Hfront|].
        cbn. lia. }
  8: { unfold execute_step. rewrite Hpc. unfold mbind, M_bind, get, mret, M_ret.
       destruct (lookup_lt_is_Some_2 (threadTable d) (it m) (Hscan eq_refl))
         as [w ->].
       cbn [result state fst snd].
       destruct (Thread.free w); cbn; lia. }
  all: unfold lock_discipline in Hlock; rewrite Hpc in Hlock;
    destruct m as [l tl ql i]; cbn [pc threadLocker taskLocker it] in *; subst l;
    lazymatch type of Hlock with
    | _ ∧ _ => destruct Hlock as [-> ->]
    | _ = _ => subst ql
    | _ => idtac
    end;
    unfold execute_step, locker_lock, locker_unlock, mbind, M_bind, getClosed, get,
      emit, mret, M_ret;
    cbn [pc threadLocker taskLocker it];
    rewrite ?Hclosed, ?orb_true_r, ?andb_false_r; cbn [negb];
    rewrite ?andb_false_r, ?destroy_workers_eq;
    repeat match goal with |- context [if ?b then _ else _] => destruct b end;
    cbn; lia.
Qed.

(** *** The teardown of the workers *)

Lemma destroys_app log1 log2 :
  destroys (log1 ++ log2) = (destroys log1 + destroys log2)%nat.
Proof. unfold destroys. by rewrite filter_app, length_app. Qed.

Lemma destroys_replicate n : destroys (replicate n DestroyWorker) = n.
Proof.
  unfold destroys. induction n as [|n IH]; [done|].
  cbn [replicate]. rewrite filter_cons_True by done. cbn [length]. by rewrite IH.
Qed.

Lemma execute_steps_S n m (d : Data) :
  execute_steps size_type (S n) m d =
    (execute_step size_type m ≫= execute_steps size_type n) d.
Proof. reflexivity. Qed.

(** A statement of the manager before the teardown, on a closed pool: it
    either stays before the teardown and destroys nothing, or is the teardown
    and destroys each worker of the table. *)
Lemma execute_step_teardown m (d : Data) :
  manager_safe m d →
  before_teardown (pc m) = true →
  let r := execute_step size_type m d in
  (before_teardown (pc (result r)) = true ∧ destroys (log r) = 0%nat) ∨
  (pc (result r) = Return ∧
   destroys (log r) = length (threadTable d) ∧
   threadTable (state r) = map Thread.destroy (threadTable d)).
Proof.
  intros (Hlock & Herror & Hscan & Hfront) Hbefore r. unfold r.
  destruct (pc m) eqn:Hpc; try done.
  14: { rewrite execute_step_configure by done.
        destruct (lookup_lt_is_Some_2 (threadTable d) (it m) (Hscan eq_refl))
          as [w ->].
        destruct (taskQueue d) as [|task q] eqn:Hq; [by destruct Hfront|].
        cbn [Queue.front head]. rewrite configure_and_start_eq. left.
        destruct (Thread.configure w task) as [[] w1]; [|done].
        by destruct (Thread.start w1) as [[] w2]. }
  8: { unfold execute_step. rewrite Hpc. unfold mbind, M_bind, get, mret, M_ret.
       destruct (lookup_lt_is_Some_2 (threadTable d) (it m) (Hscan eq_refl))
         as [w ->].
       left. by destruct (Thread.free w). }
  all: unfold lock_discipline in Hlock; rewrite Hpc in Hlock;
    destruct m as [l tl ql i]; cbn [pc threadLocker taskLocker it] in *; subst l;
    lazymatch type of Hlock with
    | _ ∧ _ => destruct Hlock as [-> ->]
    | _ = _ => subst ql
    | _ => idtac
    end;
    execute_step_cases;
    cbn [goto with_it with_threadLocker with_taskLocker pc before_teardown app];
    rewrite ?app_nil_r, ?destroys_replicate;
    first [ by left | by right ].
Qed.

Lemma execute_steps_after_teardown n m (d : Data) :
  pc m = Return ∨ pc m = Done →
  let r := execute_steps size_type n m d in
  state r = d ∧ destroys (log r) = 0%nat ∧
  (pc (result r) = Return ∧ n = 0%nat ∨ pc (result r) = Done).
Proof.
  revert m. induction n as [|n IH]; intros m Hpc r; unfold r.
  - cbn. split_and!; try done. destruct Hpc; [by left|by right].
  - rewrite execute_steps_S.
    assert (Hstep : ∃ m1 l1, execute_step size_type m d = (m1, d, l1) ∧
                             pc m1 = Done ∧ destroys l1 = 0%nat).
    { unfold execute_step. destruct Hpc as [Hpc|Hpc]; rewrite Hpc.
      - unfold mbind, M_bind, emit, mret, M_ret.
        destruct (taskLocker m), (threadLocker m); by eexists _, _.
      - by eexists _, _. }
    destruct Hstep as (m1 & l1 & Hstep & Hdone & Hnone).
    rewrite (bind_eq _ _ _ _ _ _ Hstep). cbn [state log fst snd].
    destruct (IH m1 (or_intror Hdone)) as (Hstate & Hlog & Hend).
    rewrite destroys_app, Hnone, Hlog. split_and!; try done.
    right. destruct Hend as [[Hreturn ->]|Hend]; [|done].
    cbn in Hreturn. congruence.
Qed.

(** X12: the teardown destroys each worker once.  On a closed pool, from any
    program point of the manager before the teardown, ten statements of the
    manager with no other thread in between end the manager thread with
    [destroy] called as many times as the table has workers, and every worker
    of the table destroyed. *)
Theorem teardown_destroys_each_worker_once m (d : Data) :
  closed d = true →
  manager_safe m d →
  before_teardown (pc m) = true →
  let r := execute_steps size_type 10 m d in
  pc (result r) = Done ∧
  destroys (log r) = length (threadTable d) ∧
  ∃ workers, length workers = length (threadTable d) ∧
             threadTable (state r) = map Thread.destroy workers.
Proof.
  assert (Hsteps : ∀ n m (d : Data),
    closed d = true → manager_safe m d → before_teardown (pc m) = true →
    (distance (pc m) ≤ n)%nat →
    let r := execute_steps size_type n m d in
    pc (result r) = Done ∧
    destroys (log r) = length (threadTable d) ∧
    ∃ workers, length workers = length (threadTable d) ∧
               threadTable (state r) = map Thread.destroy workers).
  { clear m d. induction n as [|n IH]; intros m d Hclosed Hsafe Hbefore Hdistance r.
    { destruct (pc m); cbn in Hdistance, Hbefore; try done; lia. }
    unfold r. rewrite execute_steps_S.
    destruct (execute_step size_type m d) as [[m1 d1] l1] eqn:Hstep.
    rewrite (bind_eq _ _ _ _ _ _ Hstep). cbn [result state log fst snd].
    pose proof (execute_step_safe m d Hsafe) as Hsafe1.
    pose proof (execute_step_distance m d Hclosed Hsafe) as Hless.
    pose proof (execute_step_teardown m d Hsafe Hbefore) as Hteardown.
    destruct (execute_step_frame m d) as (Hclosed1 & _ & _ & Hlen & _).
    rewrite Hstep in Hsafe1, Hless, Hteardown, Hclosed1, Hlen.
    cbn [result state log fst snd] in *.
    rewrite destroys_app.
    destruct Hteardown as [[Hbefore1 Hnone]|(Hreturn & Hall & Htable)].
    - destruct (IH m1 d1) as (Hdone & Hcount & workers & Hworkers & Hfinal);
        [congruence|done|done|lia|].
      rewrite Hnone, Hcount, Hlen. split_and!; try done.
      exists workers. by rewrite Hworkers, Hlen.
    - destruct (execute_steps_after_teardown n m1 d1 (or_introl Hreturn))
        as (Hstate & Hnone & Hend).
      rewrite Hstate, Hnone, Hall. split_and!.
      + destruct Hend as [[_ ->]|Hend]; [|done].
        destruct (pc m); cbn in Hdistance, Hbefore; try done; try lia.
        all: rewrite Hreturn in Hless; cbn in Hless; lia.
      + lia.
      + exists (threadTable d). by rewrite Htable. }
  intros Hclosed Hsafe Hbefore. apply Hsteps; try done.
  destruct (pc m); cbn; lia.
Qed.

(** *** After the manager *)

(** X9: once the manager thread has ended it hands over nothing and destroys
    nothing any more: whatever runs afterwards, the manager stays ended, no
    task is handed to a worker, no worker is destroyed and no worker is
    removed from the table. *)
Theorem nothing_after_the_manager acts (s s' : Pool) l :
  pc (manager s) = Done →
  run_log size_type acts s = Some (s', l) →
  pc (manager s') = Done ∧
  dispatches size_type acts s = [] ∧
  destroys l = 0%nat ∧
  (length (threadTable (data s)) ≤ length (threadTable (data s')))%nat.
Proof.
  revert s l. induction acts as [|a acts IH]; intros s l Hdone;
    cbn [run_log dispatches].
  - by intros [= <- <-].
  - destruct (perform size_type a s) as [[s1 l1]|] eqn:Ha; [|done].
    destruct (run_log size_type acts s1) as [[s2 l2]|] eqn:Hrest; [|done].
    intros [= <- <-].
    assert (Hstep : pc (manager s1) = Done ∧
                    dispatched a s = [] ∧
                    destroys l1 = 0%nat ∧
                    (length (threadTable (data s)) ≤ length (threadTable (data s1)))%nat).
    { destruct (is_manager_step a) eqn:Hkind.
      - destruct a; try done.
        apply perform_manager_step in Ha as (-> & -> & _ & ->).
        unfold execute_step, dispatched. by rewrite Hdone.
      - destruct (perform_others _ _ _ _ Hkind Ha) as (-> & _ & _ & _ & Hlen & _ & Hnone).
        by rewrite (dispatched_others _ _ Hkind). }
    destruct Hstep as (Hdone1 & Hnone & Hnone1 & Hlen1).
    destruct (IH _ _ Hdone1 Hrest) as (Hdone2 & Hrest2 & Hnone2 & Hlen2).
    rewrite destroys_app, Hnone, Hnone1, Hnone2, Hrest2.
    split_and!; try done. lia.
Qed.

(** *** Shutdown and dispatch *)

(** X14: after shutdown the manager hands over at most one more task.  From
    a state that the system reaches from a new pool and in which the pool is
    closed, whatever runs, the manager hands at most one task to a worker: the
    one of the scan that the shutdown found it in. *)
Theorem at_most_one_dispatch_after_close threads maxThreads acts0 acts (s : Pool) :
  run size_type acts0 (new_pool size_type threads maxThreads) = Some s →
  closed (data s) = true →
  (length (dispatches size_type acts s) ≤ 1)%nat.
Proof.
  intros Hreach Hclosed.
  pose proof (run_safe _ _ _ Hreach (new_pool_safe threads maxThreads)) as Hsafe.
  clear Hreach.
  assert (Hbound :
    (length (dispatches size_type acts s)
     ≤ if decide (7 ≤ distance (pc (manager s)))%nat then 1 else 0)%nat).
  { revert s Hclosed Hsafe.
    induction acts as [|a acts IH]; intros s Hclosed Hsafe; cbn [dispatches].
    - cbn. case_decide; lia.
    - destruct (perform size_type a s) as [[s1 l]|] eqn:Ha;
        [|cbn; case_decide; lia].
      pose proof (perform_safe _ _ _ _ Ha Hsafe) as Hsafe1.
      rewrite length_app.
      destruct (dispatched_once a s) as [Hone Hwhere].
      destruct (is_manager_step a) eqn:Hkind.
      + destruct a; try done.
        pose proof (execute_step_distance _ _ Hclosed Hsafe) as Hless.
        apply perform_manager_step in Ha as (Hdata & Hmanager & _).
        destruct (execute_step_frame (manager s) (data s)) as (Hclosed1 & _).
        rewrite <- Hdata in Hclosed1. rewrite <- Hmanager in Hless.
        specialize (IH s1 ltac:(congruence) Hsafe1).
        destruct (dispatched Manager_step s) as [|task tasks] eqn:Hd.
        * cbn [length]. repeat case_decide; lia.
        * destruct Hwhere as [_ Hpc]; [done|].
          rewrite Hpc in *. cbn [distance] in *. repeat case_decide; lia.
      + destruct (perform_others _ _ _ _ Hkind Ha)
          as (Hmanager & _ & _ & _ & _ & Hc & _).
        specialize (IH s1 (Hc Hclosed) Hsafe1).
        rewrite (dispatched_others _ _ Hkind). cbn [length].
        by rewrite <- Hmanager. }
  case_decide; lia.
Qed.

(** *** The constructor and [setThreads] *)


End Lifecycle_facts.

(** ** The properties of the pool at concrete runs *)

Lemma callback_counts_witness :
  min_value size_t <= freeThreads (pool 0 4) < max_value size_t ∧
  callback size_t false 0%nat (pool 0 4) = (tt, pool 0 4, []) ∧
  state (callback size_t true 0%nat (pool 0 4))
    = with_freeThreads (freeThreads (pool 0 4) + 1) (pool 0 4) ∧
  log (callback size_t true 0%nat (pool 0 4)) = [NotifyOne].
Proof.
  assert (Hfree : min_value size_t <= freeThreads (pool 0 4) < max_value size_t).
  { assert (freeThreads (pool 0 4) = 0) as -> by reflexivity.
    pose proof (max_value_at_least size_t). pose proof (min_value_nonpos size_t). lia. }
  destruct (callback_counts size_t false 0%nat (pool 0 4) Hfree) as [Huntouched _].
  destruct (callback_counts size_t true 0%nat (pool 0 4) Hfree) as [_ Hcounted].
  destruct (Hcounted eq_refl) as [Hstate Hlog].
  split; [exact Hfree|]. split; [exact (Huntouched eq_refl)|].
  split; [exact Hstate|]. exact Hlog.
Defined.

Lemma setThreads_false_is_clean_witness :
  (result (setThreads size_t 5 (pool 2 4)) = Returns false ∧
   state (setThreads size_t 5 (pool 2 4)) = pool 2 4 ∧
   log (setThreads size_t 5 (pool 2 4)) = []) ∧
  (result (setThreads size_t 3 (pool 2 4)) = Returns true ∧
   ∃ k, (0 < k)%nat ∧
        threadTable (state (setThreads size_t 3 (pool 2 4)))
          = threadTable (pool 2 4) ++ replicate k Thread.make) ∧
  (2 = Z.of_nat (length (threadTable (pool 2 4))) ∧
   result (setThreads size_t 2 (pool 2 4)) = Returns false).
Proof.
  destruct (setThreads_false_is_clean size_t 5 (pool 2 4)) as (Hclean & _ & _).
  destruct (setThreads_false_is_clean size_t 3 (pool 2 4)) as (_ & Hgrown & _).
  destruct (setThreads_false_is_clean size_t 2 (pool 2 4)) as (_ & _ & Hsame).
  assert (Hfalse : result (setThreads size_t 5 (pool 2 4)) = Returns false)
    by reflexivity.
  assert (Htrue : result (setThreads size_t 3 (pool 2 4)) = Returns true)
    by reflexivity.
  assert (Hsize : 2 = Z.of_nat (length (threadTable (pool 2 4)))) by reflexivity.
  split_and!.
  - exact Hfalse.
  - exact (proj1 (Hclean Hfalse)).
  - exact (proj2 (Hclean Hfalse)).
  - exact Htrue.
  - destruct (Hgrown Htrue) as (k & Hpos & Htable & _). by exists k.
  - exact Hsize.
  - exact (Hsame Hsize).
Defined.

Lemma pushTask_list_as_each_witness :
  let tasks := [(1%nat, 2%nat); (3%nat, 4%nat)] in
  let r := pushTask_list tasks (pool 1 1) in
  Queue.size (taskQueue (pool 1 1)) + Z.of_nat (length tasks) <= max_value size_t ∧
  state r = state (pushTask_each tasks (pool 1 1)) ∧
  taskQueue (state r) = tasks ∧
  notifications (log r) = notifications (log (pushTask_each tasks (pool 1 1))) ∧
  result (getTasks size_t (state r)) = 2.
Proof.
  intros tasks r.
  assert (Hfit : Queue.size (taskQueue (pool 1 1)) + Z.of_nat (length tasks)
                 <= max_value size_t).
  { assert (Queue.size (taskQueue (pool 1 1)) + Z.of_nat (length tasks) = 2)
      as -> by reflexivity.
    pose proof (max_value_at_least size_t). lia. }
  destruct (pushTask_list_as_each size_t tasks (pool 1 1))
    as (Hstate & Hqueue & Hcount & Hsize).
  split; [exact Hfit|]. split; [exact Hstate|]. split; [exact Hqueue|].
  split; [exact Hcount|]. exact (Hsize Hfit).
Defined.

Lemma manager_step_effect_witness :
  ∃ s s' l, run size_t submit_and_scan (system 1 1) = Some s ∧
            perform size_t Manager_step s = Some (s', l) ∧
            pc (manager s) = Configure ∧
            closed (data s') = closed (data s) ∧
            length (threadTable (data s')) = length (threadTable (data s)) ∧
            taskQueue (data s) = (1%nat, 2%nat) :: taskQueue (data s') ∧
            freeThreads (data s') = 0.
Proof.
  destruct (run size_t submit_and_scan (system 1 1)) as [s|] eqn:Hrun;
    [|vm_compute in Hrun; discriminate Hrun].
  destruct (perform size_t Manager_step s) as [[s' l]|] eqn:Hstep;
    [|vm_compute in Hrun; injection Hrun as <-; vm_compute in Hstep;
      discriminate Hstep].
  exists s, s', l.
  destruct (manager_step_effect size_t s s' l Hstep)
    as (_ & Hclosed & _ & _ & Hlen & _).
  split; [reflexivity|]. split; [exact Hstep|].
  vm_compute in Hrun. injection Hrun as <-.
  vm_compute in Hstep. injection Hstep as <- <-.
  split; [reflexivity|]. split; [exact Hclosed|]. split; [exact Hlen|].
  split; reflexivity.
Defined.

Lemma workers_never_removed_witness :
  ∃ s', run size_t grow_by_one (system 2 4) = Some s' ∧
        (length (threadTable (data (system 2 4)))
         ≤ length (threadTable (data s')))%nat.
Proof.
  destruct (run size_t grow_by_one (system 2 4)) as [s'|] eqn:Hrun.
  - exists s'. split; [reflexivity|].
    exact (workers_never_removed size_t grow_by_one (system 2 4) s' Hrun).
  - vm_compute in Hrun. discriminate Hrun.
Defined.

Lemma capacity_is_last_stored_witness :
  ∃ s, run size_t capacity_changes (new_pool size_t 2 4) = Some s ∧
       result (getMaxThreads (data s)) = 1 ∧
       1 <= result (getMaxThreads (data s)).
Proof.
  destruct (run size_t capacity_changes (new_pool size_t 2 4)) as [s|] eqn:Hrun.
  - exists s. split; [reflexivity|].
    exact (capacity_is_last_stored size_t 2 4 capacity_changes s Hrun).
  - vm_compute in Hrun. discriminate Hrun.
Defined.

Lemma tasks_leave_in_order_witness :
  ∃ s', run size_t submit_fetch_dispatch (system 1 1) = Some s' ∧
        leaves size_t submit_fetch_dispatch (system 1 1)
          = [(1%nat, 2%nat); (3%nat, 4%nat)] ∧
        taskQueue (data s') = [(5%nat, 6%nat)] ∧
        taskQueue (data (system 1 1)) ++ flat_map submitted submit_fetch_dispatch
          = leaves size_t submit_fetch_dispatch (system 1 1) ++ taskQueue (data s').
Proof.
  destruct (run size_t submit_fetch_dispatch (system 1 1)) as [s'|] eqn:Hrun.
  - exists s'. split; [reflexivity|]. split; [vm_compute; reflexivity|].
    split; [vm_compute in Hrun; by injection Hrun as <-|].
    exact (tasks_leave_in_order size_t submit_fetch_dispatch (system 1 1) s' Hrun).
  - vm_compute in Hrun. discriminate Hrun.
Defined.

Lemma nothing_after_the_manager_witness :
  pc (manager ended_system) = Done ∧
  ∃ s' l, run_log size_t after_the_manager ended_system = Some (s', l) ∧
          pc (manager s') = Done ∧
          dispatches size_t after_the_manager ended_system = [] ∧
          destroys l = 0%nat ∧
          taskQueue (data s') = [(1%nat, 2%nat)].
Proof.
  assert (Hdone : pc (manager ended_system) = Done) by reflexivity.
  split; [exact Hdone|].
  destruct (run_log size_t after_the_manager ended_system) as [[s' l]|] eqn:Hrun.
  - destruct (nothing_after_the_manager size_t _ _ _ _ Hdone Hrun)
      as (Hdone' & Hnone & Hkept & _).
    exists s', l. split; [reflexivity|]. split; [exact Hdone'|].
    split; [exact Hnone|]. split; [exact Hkept|].
    vm_compute in Hrun. by injection Hrun as <- <-.
  - vm_compute in Hrun. discriminate Hrun.
Defined.

Lemma manager_is_safe_witness :
  ∃ s, run size_t submit_and_scan (new_pool size_t 1 1) = Some s ∧
       pc (manager s) = Configure ∧
       manager_safe (manager s) (data s) ∧
       is_Some (threadTable (data s) !! it (manager s)) ∧
       is_Some (Queue.front (taskQueue (data s))).
Proof.
  destruct (run size_t submit_and_scan (new_pool size_t 1 1)) as [s|] eqn:Hrun.
  - destruct (manager_is_safe size_t 1 1 submit_and_scan s Hrun)
      as (Hsafe & Hworker & Hfront).
    assert (Hpc : pc (manager s) = Configure).
    { vm_compute in Hrun. by injection Hrun as <-. }
    exists s. split; [reflexivity|]. split; [exact Hpc|]. split; [exact Hsafe|].
    split; [exact (Hworker (or_intror Hpc))|exact (Hfront Hpc)].
  - vm_compute in Hrun. discriminate Hrun.
Defined.

Lemma teardown_destroys_each_worker_once_witness :
  let d := state (destroy (pool 2 4)) in
  let r := execute_steps size_t 10 execute_start d in
  (closed d = true ∧ manager_safe execute_start d ∧
   before_teardown (pc execute_start) = true) ∧
  pc (result r) = Done ∧
  destroys (log r) = 2%nat ∧
  ∃ workers, length workers = 2%nat ∧
             threadTable (state r) = map Thread.destroy workers.
Proof.
  intros d r.
  assert (Hclosed : closed d = true) by reflexivity.
  assert (Hsafe : manager_safe execute_start d) by (by split_and!).
  assert (Hbefore : before_teardown (pc execute_start) = true) by reflexivity.
  split; [by split_and!|].
  exact (teardown_destroys_each_worker_once size_t execute_start d
           Hclosed Hsafe Hbefore).
Defined.

Lemma at_most_one_dispatch_after_close_witness :
  ∃ s, run size_t shutdown_in_scan (new_pool size_t 1 1) = Some s ∧
       closed (data s) = true ∧
       dispatches size_t manager_to_end s = [(1%nat, 2%nat)] ∧
       (length (dispatches size_t manager_to_end s) ≤ 1)%nat.
Proof.
  destruct (run size_t shutdown_in_scan (new_pool size_t 1 1)) as [s|] eqn:Hreach;
    [|vm_compute in Hreach; discriminate Hreach].
  assert (Hclosed : closed (data s) = true).
  { vm_compute in Hreach. by injection Hreach as <-. }
  exists s. split; [reflexivity|]. split; [exact Hclosed|].
  split; [vm_compute in Hreach; injection Hreach as <-; vm_compute; reflexivity|].
  exact (at_most_one_dispatch_after_close size_t 1 1 shutdown_in_scan
           manager_to_end s Hreach Hclosed).
Defined.


(** After shutdown in the middle of a scan the manager still hands over the
    task it had come to, and no other. *)
Example dispatch_after_close :
  ∃ s s', run size_t shutdown_in_scan (system 1 1) = Some s ∧
          taskQueue (data s) = [(1%nat, 2%nat)] ∧
          run size_t manager_to_end s = Some s' ∧
          taskQueue (data s') = [(3%nat, 4%nat)] ∧
          pc (manager s') = Done.
Proof.
  eexists. eexists. split; [vm_compute; reflexivity|]. split; [reflexivity|].
  split; [vm_compute; reflexivity|]. by split.
Qed.
